(** * EICRootWriter: dynamic column management of the podio ROOT writer

    A shallow embedding of [src/services/io/podio/EICRootWriter.cc]:
    the collection name resolver ([DeriveCollectionName]), the column
    materializer ([PutPODIODataT]), the configuration parsing of [Init],
    the schema synchronizer ([CreateBranch], [ResetBranches]) and the
    per-event driver ([Process]).

    Strings are [string], [std::set<std::string>] is [gset string],
    [std::map<std::string,std::string>] is [gmap string string], and
    [std::vector] is [list].  Pointers into a vector are indices.  A C++
    exception is an explicit [Exception] outcome that carries [what()]. *)

From Stdlib Require Import Ascii.
From stdpp Require Import gmap strings list.

(** ** The standard library pieces the writer uses *)

(** [std::set<std::string>]: [count], [empty] and [insert]. *)
Module std_set.

Definition count (s : gset string) (x : string) : nat :=
  if decide (x ∈ s) then 1 else 0.

Definition empty (s : gset string) : bool := bool_decide (s = ∅).

Definition insert (x : string) (s : gset string) : gset string := {[ x ]} ∪ s.

End std_set.

(** [std::map<std::string,std::string>::count]. *)
Module std_map.

Definition count (m : gmap string string) (k : string) : nat :=
  if decide (is_Some (m !! k)) then 1 else 0.

End std_map.

(** [std::stringstream] as far as [Init] uses it: the unread characters and
    the two state bits that [good()] looks at. *)
Module sstream.

Record stringstream : Type := mk_stringstream {
  unread : string;
  eofbit : bool;
  failbit : bool
}.

Definition open (s : string) : stringstream :=
  {| unread := s; eofbit := false; failbit := false |}.

Definition good (ss : stringstream) : bool :=
  negb (eofbit ss) && negb (failbit ss).

(** The extraction loop of [std::getline(is, str, delim)]: characters are
    moved to the result until the input ends (which raises [eofbit]) or the
    delimiter is met (which is consumed and not stored).  The result is the
    field, the rest of the input and whether the end was hit. *)
Fixpoint extract (delim : Ascii.ascii) (s : string) : string * string * bool :=
  match s with
  | EmptyString => (EmptyString, EmptyString, true)
  | String c rest =>
      if decide (c = delim) then (EmptyString, rest, false)
      else let '(field, rest', eof) := extract delim rest in
           (String c field, rest', eof)
  end.

(** [std::getline] on a stream that is [good()]: the target string is erased
    first, and [failbit] is raised when no character at all was extracted
    (neither a field character nor a delimiter). *)
Definition getline (ss : stringstream) (delim : Ascii.ascii) : string * stringstream :=
  let '(field, rest, eof) := extract delim (unread ss) in
  (field,
   {| unread := rest;
      eofbit := eofbit ss || eof;
      failbit := failbit ss || bool_decide (unread ss = EmptyString) |}).

End sstream.

(** ** Outcomes of code that may throw *)

Inductive outcome (A : Type) : Type :=
| Value (a : A)
| Exception (what : string).
Arguments Value {A} a.
Arguments Exception {A} what.

(** [std::type_index]: compared for equality only. *)
Definition type_index : Type := string.

(** ** The podio column registry

    Modelled from the spec: [podio::CollectionIDTable] is a library class
    whose source is not part of the writer.  The spec's Column Registry
    keeps entries {name, id}, with names unique and ids handed out in
    first-seen order; the k-th name registered gets id k. *)
Module CollectionIDTable.

Definition t : Type := list (string * nat).

Definition names (tbl : t) : list string := tbl.*1.

Definition present (tbl : t) (name : string) : bool :=
  bool_decide (name ∈ names tbl).

Definition collectionID (tbl : t) (name : string) : option nat :=
  snd <$> (snd <$> list_find (λ e, e.1 = name) tbl).

Definition add (tbl : t) (name : string) : t :=
  if present tbl name then tbl else tbl ++ [(name, S (length tbl))].

End CollectionIDTable.

Section Writer.

(** The high-level record objects held by the factories and the plain data
    the record library stores for each of them. *)
Variables (Obj POD : Type).

(** The record library's write preparation for one object ([clone] followed
    by [prepareForWrite]): the plain data, or the exception it raises. *)
Variable podData : Obj → outcome POD.

(** The record types known to the generated [datamodel_glue.h], each with
    the value type name its collection class reports. *)
Variable datamodel : list (type_index * string).

(** ** Data model *)

(** What the writer asks of a [JFactory]. *)
Record JFactory : Type := mk_JFactory {
  GetTag : string;
  GetObjectName : string;
  GetObjectType : type_index;
  GetNumObjects : nat;
  GetAs : type_index → list Obj
}.

(** [EICEventStore::DataVectorT<T>]: a named, typed buffer of plain data. *)
Record DataVector : Type := mk_DataVector {
  name : string;
  className : string;
  vec : list POD
}.

Record EICEventStore : Type := mk_EICEventStore {
  m_datavectors : list DataVector
}.

(** A branch of the events tree.  [address] is the content of the buffer
    the branch is bound to, read when the branch is filled; [baskets] are
    the rows filled so far, oldest first.  A branch that is not rebound for
    an event keeps the binding of the event that last supplied it (in the
    C++ the buffer behind such a binding may be gone by then; nothing below
    depends on what such a row holds, only on its being a row). *)
Record TBranch : Type := mk_TBranch {
  br_name : string;
  br_class : string;
  address : list POD;
  baskets : list (list POD)
}.

Record TTree : Type := mk_TTree {
  branches : list TBranch;
  entries : nat
}.

(** The writer between [Init] and [Finish] (both tree pointers are set). *)
Record EICRootWriter : Type := mk_EICRootWriter {
  m_OUTPUT_INCLUDE_COLLECTIONS : gset string;
  m_OUTPUT_EXCLUDE_COLLECTIONS : gset string;
  m_collection_branches : gmap string string;
  m_collectionIDtable : CollectionIDTable.t;
  m_datatree : TTree;
  m_evtMDtree : nat;
  cerr : list string
}.

Definition GetIncludeCollections (w : EICRootWriter) : gset string :=
  m_OUTPUT_INCLUDE_COLLECTIONS w.

Definition GetExcludeCollections (w : EICRootWriter) : gset string :=
  m_OUTPUT_EXCLUDE_COLLECTIONS w.

(** What [Process] asks of a [JEvent]: the factories, and the event store
    attached to the event when there is one.  [Process] changes the
    attached store in place, so it is part of the state. *)
Record JEvent : Type := mk_JEvent {
  GetAllFactories : list JFactory;
  GetSingle_EICEventStore : option EICEventStore
}.

(** ** DeriveCollectionName *)

Definition DeriveCollectionName (T : type_index) (edm4hep_name : string)
    (fac : JFactory) : string :=
  if decide (GetTag fac = EmptyString) then GetObjectName fac
  else if decide (T = GetObjectType fac) then GetTag fac
  else GetObjectName fac.

(** ** PutPODIODataT *)

(** The loop that looks for a data vector with the collection name: the
    index of the first one, when there is one. *)
Definition find_datavector (store : EICEventStore) (collection_name : string)
    : option nat :=
  fst <$> list_find (λ dv, name dv = collection_name) (m_datavectors store).

(** [store.m_datavectors.push_back(dv)], with the index of the new element. *)
Definition push_back (store : EICEventStore) (dv : DataVector)
    : EICEventStore * nat :=
  ({| m_datavectors := m_datavectors store ++ [dv] |},
   length (m_datavectors store)).

(** [vecptr->swap( *databuffer )]: the buffer at the index receives the
    prepared data (the old content goes to the temporary collection). *)
Definition swap_into (store : EICEventStore) (databuffer : nat)
    (data : list POD) : EICEventStore :=
  {| m_datavectors :=
       alter (λ dv, {| name := name dv; className := className dv; vec := data |})
             databuffer (m_datavectors store) |}.

(** Check if a collection with this name already exists; if not create it.
    The result is the store and the index of the buffer. *)
Definition find_or_create (store : EICEventStore) (collection_name : string)
    (className : string) : EICEventStore * nat :=
  match find_datavector store collection_name with
  | Some i => (store, i)
  | None =>
      push_back store
        {| name := collection_name; className := className; vec := [] |}
  end.

(** Cloning the objects into the temporary collection and preparing it for
    writing: the first exception ends it. *)
Fixpoint prepareForWrite (v : list Obj) : outcome (list POD) :=
  match v with
  | [] => Value []
  | obj :: v' =>
      match podData obj with
      | Exception what => Exception what
      | Value d =>
          match prepareForWrite v' with
          | Exception what => Exception what
          | Value ds => Value (d :: ds)
          end
      end
  end.

Definition PutPODIODataT (T : type_index) (className : string)
    (writer : EICRootWriter) (fac : JFactory) (store : EICEventStore)
    : outcome string * EICEventStore :=
  let collection_name := DeriveCollectionName T className fac in
  let exclude_collections := GetExcludeCollections writer in
  if bool_decide (std_set.count exclude_collections collection_name ≠ 0)
  then (Value EmptyString, store)
  else
    let include_collections := GetExcludeCollections writer in
    if negb (std_set.empty include_collections)
       && bool_decide (std_set.count include_collections collection_name = 0)
    then (Value EmptyString, store)
    else
      let '(store, databuffer) :=
        find_or_create store collection_name className in
      match prepareForWrite (GetAs fac T) with
      | Exception what => (Exception what, store)
      | Value data => (Value collection_name, swap_into store databuffer data)
      end.

(** The two early returns of [PutPODIODataT] as one test on the derived
    name: the exclude test, then the test the source makes on the set it
    reads as [include_collections] (through [GetExcludeCollections]). *)
Definition bails_early (writer : EICRootWriter) (collection_name : string)
    : bool :=
  bool_decide (std_set.count (GetExcludeCollections writer) collection_name ≠ 0)
  || (negb (std_set.empty (GetExcludeCollections writer))
      && bool_decide (std_set.count (GetExcludeCollections writer) collection_name = 0)).

(** ** PutPODIOData

    Modelled from the spec: [PutPODIOData] is in [datamodel_glue.h], which
    [make_datamodel_glue.py] generates and which is not in the source tree.
    It tries the known record types in turn and hands the factory to the
    instance of [PutPODIODataT] of the first one the factory can supply
    objects as; a producer whose type has no mapping to a record type
    silently contributes nothing and the empty name is returned. *)
Fixpoint PutPODIOData_from (types : list (type_index * string))
    (writer : EICRootWriter) (fac : JFactory) (store : EICEventStore)
    : outcome string * EICEventStore :=
  match types with
  | [] => (Value EmptyString, store)
  | (T, className) :: types' =>
      match GetAs fac T with
      | [] => PutPODIOData_from types' writer fac store
      | _ :: _ => PutPODIODataT T className writer fac store
      end
  end.

Definition PutPODIOData : EICRootWriter → JFactory → EICEventStore →
    outcome string * EICEventStore :=
  PutPODIOData_from datamodel.

(** ** Init *)

(** The loop [while (ss.good()) { getline(ss, substr, ','); set.insert(substr); }].
    Every turn consumes a character or raises [eofbit], so a fuel of one
    more than the length of the input is never used up ([fields_loop_ends]). *)
Fixpoint fields_loop (fuel : nat) (ss : sstream.stringstream)
    (set : gset string) : gset string * sstream.stringstream :=
  match fuel with
  | 0 => (set, ss)
  | S fuel' =>
      if sstream.good ss then
        let '(substr, ss') := sstream.getline ss ","%char in
        fields_loop fuel' ss' (std_set.insert substr set)
      else (set, ss)
  end.

(** The block guarded by [if( ! str.empty() )]. *)
Definition parse_collections (str : string) (set : gset string) : gset string :=
  if bool_decide (str = EmptyString) then set
  else (fields_loop (S (String.length str)) (sstream.open str) set).1.

(** [Init], given the values the two list parameters resolve to. *)
Definition Init (m_include_collections_str m_exclude_collections_str : string)
    : EICRootWriter :=
  {| m_OUTPUT_INCLUDE_COLLECTIONS := parse_collections m_include_collections_str ∅;
     m_OUTPUT_EXCLUDE_COLLECTIONS := parse_collections m_exclude_collections_str ∅;
     m_collection_branches := ∅;
     m_collectionIDtable := [];
     m_datatree := {| branches := []; entries := 0 |};
     m_evtMDtree := 0;
     cerr := [] |}.

(** ** The events tree

    Modelled from the spec: [TTree] and [TBranch] are ROOT classes, the
    spec's physical output: create a named column with a declared type and
    an initial row pointer, rebind a column's row pointer, flush one row
    across all columns.  A new branch has no rows; filling a branch appends
    the content its address points to; filling the tree fills every branch
    and counts one more entry. *)
Definition TBranch_SetAddress (addr : list POD) (b : TBranch) : TBranch :=
  {| br_name := br_name b; br_class := br_class b;
     address := addr; baskets := baskets b |}.

Definition TBranch_Fill (b : TBranch) : TBranch :=
  {| br_name := br_name b; br_class := br_class b;
     address := address b; baskets := baskets b ++ [address b] |}.

(** A call through a branch pointer: the branch at the index changes. *)
Definition on_branch (branch : nat) (f : TBranch → TBranch) (t : TTree) : TTree :=
  {| branches := alter f branch (branches t); entries := entries t |}.

Definition TTree_Branch (t : TTree) (nm cls : string) (addr : list POD)
    : TTree * nat :=
  ({| branches := branches t ++
         [{| br_name := nm; br_class := cls; address := addr; baskets := [] |}];
      entries := entries t |},
   length (branches t)).

Definition TTree_GetEntries (t : TTree) : nat := entries t.

Definition TTree_SetBranchAddress (t : TTree) (nm : string) (addr : list POD)
    : TTree :=
  match list_find (λ b, br_name b = nm) (branches t) with
  | Some (i, _) => on_branch i (TBranch_SetAddress addr) t
  | None => t
  end.

Definition TTree_Fill (t : TTree) : TTree :=
  {| branches := TBranch_Fill <$> branches t; entries := S (entries t) |}.

(** Modelled from the spec: [MakeDataVector] is declared outside the source
    tree; it makes an empty buffer of the same declared type. *)
Definition MakeDataVector (nm cls : string) : DataVector :=
  {| name := nm; className := cls; vec := [] |}.

Definition set_datatree (w : EICRootWriter) (t : TTree) : EICRootWriter :=
  {| m_OUTPUT_INCLUDE_COLLECTIONS := m_OUTPUT_INCLUDE_COLLECTIONS w;
     m_OUTPUT_EXCLUDE_COLLECTIONS := m_OUTPUT_EXCLUDE_COLLECTIONS w;
     m_collection_branches := m_collection_branches w;
     m_collectionIDtable := m_collectionIDtable w;
     m_datatree := t;
     m_evtMDtree := m_evtMDtree w;
     cerr := cerr w |}.

Definition set_collection_branches (w : EICRootWriter)
    (m : gmap string string) : EICRootWriter :=
  {| m_OUTPUT_INCLUDE_COLLECTIONS := m_OUTPUT_INCLUDE_COLLECTIONS w;
     m_OUTPUT_EXCLUDE_COLLECTIONS := m_OUTPUT_EXCLUDE_COLLECTIONS w;
     m_collection_branches := m;
     m_collectionIDtable := m_collectionIDtable w;
     m_datatree := m_datatree w;
     m_evtMDtree := m_evtMDtree w;
     cerr := cerr w |}.

Definition set_collectionIDtable (w : EICRootWriter)
    (tbl : CollectionIDTable.t) : EICRootWriter :=
  {| m_OUTPUT_INCLUDE_COLLECTIONS := m_OUTPUT_INCLUDE_COLLECTIONS w;
     m_OUTPUT_EXCLUDE_COLLECTIONS := m_OUTPUT_EXCLUDE_COLLECTIONS w;
     m_collection_branches := m_collection_branches w;
     m_collectionIDtable := tbl;
     m_datatree := m_datatree w;
     m_evtMDtree := m_evtMDtree w;
     cerr := cerr w |}.

Definition set_evtMDtree (w : EICRootWriter) (n : nat) : EICRootWriter :=
  {| m_OUTPUT_INCLUDE_COLLECTIONS := m_OUTPUT_INCLUDE_COLLECTIONS w;
     m_OUTPUT_EXCLUDE_COLLECTIONS := m_OUTPUT_EXCLUDE_COLLECTIONS w;
     m_collection_branches := m_collection_branches w;
     m_collectionIDtable := m_collectionIDtable w;
     m_datatree := m_datatree w;
     m_evtMDtree := n;
     cerr := cerr w |}.

Definition set_cerr (w : EICRootWriter) (log : list string) : EICRootWriter :=
  {| m_OUTPUT_INCLUDE_COLLECTIONS := m_OUTPUT_INCLUDE_COLLECTIONS w;
     m_OUTPUT_EXCLUDE_COLLECTIONS := m_OUTPUT_EXCLUDE_COLLECTIONS w;
     m_collection_branches := m_collection_branches w;
     m_collectionIDtable := m_collectionIDtable w;
     m_datatree := m_datatree w;
     m_evtMDtree := m_evtMDtree w;
     cerr := log |}.

(** ** CreateBranch *)

Definition CreateBranch (w : EICRootWriter) (dv : DataVector) : EICRootWriter :=
  let '(tree, branch) :=
    TTree_Branch (m_datatree w) (name dv) (className dv) (vec dv) in
  let w := set_datatree w tree in
  let w := set_collection_branches w
             (<[name dv := className dv]> (m_collection_branches w)) in
  (* Backfill for events we've missed. *)
  let tmpdv := MakeDataVector (name dv) (className dv) in
  let tree := on_branch branch (TBranch_SetAddress (vec tmpdv)) (m_datatree w) in
  let Nentries := TTree_GetEntries tree in
  let tree := Nat.iter Nentries (on_branch branch TBranch_Fill) tree in
  let tree := on_branch branch (TBranch_SetAddress (vec dv)) tree in
  set_datatree w tree.

(** ** ResetBranches *)

(** The body of the loop over the data vectors of the store. *)
Definition ResetBranches_body (w : EICRootWriter) (dv : DataVector)
    : EICRootWriter :=
  if bool_decide (std_set.count (m_OUTPUT_EXCLUDE_COLLECTIONS w) (name dv) ≠ 0)
  then w
  else if negb (std_set.empty (m_OUTPUT_INCLUDE_COLLECTIONS w))
          && bool_decide (std_set.count (m_OUTPUT_INCLUDE_COLLECTIONS w) (name dv) = 0)
  then w
  else
    let w := if bool_decide (std_map.count (m_collection_branches w) (name dv) = 0)
             then CreateBranch w dv else w in
    let w := set_datatree w
               (TTree_SetBranchAddress (m_datatree w) (name dv) (vec dv)) in
    if negb (CollectionIDTable.present (m_collectionIDtable w) (name dv))
    then set_collectionIDtable w
           (CollectionIDTable.add (m_collectionIDtable w) (name dv))
    else w.

(** The writer once the branch of a data vector exists: the first step of
    the loop body. *)
Definition with_branch (w : EICRootWriter) (dv : DataVector) : EICRootWriter :=
  if bool_decide (std_map.count (m_collection_branches w) (name dv) = 0)
  then CreateBranch w dv else w.

(** The filter at the head of the loop body: the exclude test, then the
    include test. *)
Definition ignored (w : EICRootWriter) (nm : string) : bool :=
  bool_decide (std_set.count (m_OUTPUT_EXCLUDE_COLLECTIONS w) nm ≠ 0)
  || (negb (std_set.empty (m_OUTPUT_INCLUDE_COLLECTIONS w))
      && bool_decide (std_set.count (m_OUTPUT_INCLUDE_COLLECTIONS w) nm = 0)).

(** The registration at the end of the loop body, on the table alone. *)
Definition register (tbl : CollectionIDTable.t) (nm : string)
    : CollectionIDTable.t :=
  if negb (CollectionIDTable.present tbl nm)
  then CollectionIDTable.add tbl nm else tbl.

Definition ResetBranches (w : EICRootWriter) (store : EICEventStore)
    : EICRootWriter :=
  foldl ResetBranches_body w (m_datavectors store).

(** ** Process *)

(** [a.Swap(b)]: the member vectors change places. *)
Definition Swap (a b : EICEventStore) : EICEventStore * EICEventStore :=
  ({| m_datavectors := m_datavectors b |}, {| m_datavectors := m_datavectors a |}).

(** The body of the loop over the factories: the store being filled and the
    lines written to [std::cerr] so far. *)
Definition Process_factory (w : EICRootWriter)
    (st : EICEventStore * list string) (fac : JFactory)
    : EICEventStore * list string :=
  if bool_decide (GetNumObjects fac ≠ 0) then
    match PutPODIOData w fac st.1 with
    | (Value collection_name, store) => (store, st.2)
    | (Exception what, store) =>
        (store, st.2 ++ [what +:+ " : " +:+ GetObjectName fac])
    end
  else st.

Definition Process (w : EICRootWriter) (event : JEvent)
    : EICRootWriter * JEvent :=
  let store := {| m_datavectors := [] |} in
  let es := GetSingle_EICEventStore event in
  let '(store, es) :=
    match es with
    | Some e => let '(s, e') := Swap store e in (s, Some e')
    | None => (store, None)
    end in
  let '(store, log) :=
    foldl (Process_factory w) (store, cerr w) (GetAllFactories event) in
  let w := set_cerr w log in
  (* Reset the branch addresses for all collections we are writing *)
  let w := ResetBranches w store in
  (* Write the event to trees *)
  let w := set_datatree w (TTree_Fill (m_datatree w)) in
  let w := set_evtMDtree w (S (m_evtMDtree w)) in
  (* Swap the EICEventStore members back to the JANA-managed one *)
  let es :=
    match es with
    | Some e => Some (Swap store e).2
    | None => None
    end in
  (w, {| GetAllFactories := GetAllFactories event;
         GetSingle_EICEventStore := es |}).

(** The local store when the loop over the factories starts, and the
    store and log when it ends. *)
Definition local_store (event : JEvent) : EICEventStore :=
  match GetSingle_EICEventStore event with
  | Some e => (Swap {| m_datavectors := [] |} e).1
  | None => {| m_datavectors := [] |}
  end.

Definition materialize (w : EICRootWriter) (event : JEvent)
    : EICEventStore * list string :=
  foldl (Process_factory w) (local_store event, cerr w) (GetAllFactories event).

(** A job: the events processed one after the other. *)
Definition ProcessAll (w : EICRootWriter) (events : list JEvent)
    : EICRootWriter :=
  foldl (λ w event, (Process w event).1) w events.

(** *** What one turn of the loop does to the store

    A turn leaves the store alone, or finds or creates the buffer of a name
    and then either stops there (the preparation threw) or puts data in it. *)
Inductive action : Type :=
| Skip
| Touch (nm cls : string) (data : option (list POD)).

Fixpoint touch (nm cls : string) (data : option (list POD))
    (l : list DataVector) : list DataVector :=
  match l with
  | [] => [{| name := nm; className := cls; vec := default [] data |}]
  | dv :: l' =>
      if decide (name dv = nm) then
        match data with
        | Some d => {| name := name dv; className := className dv; vec := d |}
        | None => dv
        end :: l'
      else dv :: touch nm cls data l'
  end.

Definition act_list (a : action) (l : list DataVector) : list DataVector :=
  match a with
  | Skip => l
  | Touch nm cls data => touch nm cls data l
  end.

Definition act (a : action) (store : EICEventStore) : EICEventStore :=
  {| m_datavectors := act_list a (m_datavectors store) |}.

(** The turns of a list of factories, one after the other. *)
Definition run (actions : list action) (l : list DataVector) : list DataVector :=
  foldl (λ l a, act_list a l) l actions.

Definition action_of_T (T : type_index) (className : string)
    (w : EICRootWriter) (fac : JFactory) : action :=
  let collection_name := DeriveCollectionName T className fac in
  if bails_early w collection_name then Skip
  else Touch collection_name className
         match prepareForWrite (GetAs fac T) with
         | Value data => Some data
         | Exception _ => None
         end.

Fixpoint action_from (types : list (type_index * string))
    (w : EICRootWriter) (fac : JFactory) : action :=
  match types with
  | [] => Skip
  | (T, className) :: types' =>
      match GetAs fac T with
      | [] => action_from types' w fac
      | _ :: _ => action_of_T T className w fac
      end
  end.

Definition action_of (w : EICRootWriter) (fac : JFactory) : action :=
  if bool_decide (GetNumObjects fac ≠ 0) then action_from datamodel w fac
  else Skip.

End Writer.

(** ** The rules as the specification words them *)

(** The column name rule: an empty tag gives the declared output type name;
    otherwise a runtime object type equal to the target type gives the tag;
    otherwise the declared output type name. *)
Definition column_name_rule (tag object_name : string)
    (runtime_type target_type : type_index) : string :=
  match tag with
  | EmptyString => object_name
  | String _ _ =>
      if bool_decide (runtime_type = target_type) then tag else object_name
  end.

(** The fields of a comma-separated list: one more than there are commas. *)
Fixpoint fields (s : string) : list string :=
  match s with
  | EmptyString => [EmptyString]
  | String c s' =>
      if decide (c = ","%char) then EmptyString :: fields s'
      else match fields s' with
           | [] => [String c EmptyString]
           | field :: rest => String c field :: rest
           end
  end.

(** The names of a sequence of registrations in the order in which each is
    first seen, given those seen before. *)
Fixpoint first_seen (seen l : list string) : list string :=
  match l with
  | [] => []
  | nm :: l' =>
      if decide (nm ∈ seen) then first_seen seen l'
      else nm :: first_seen (seen ++ [nm]) l'
  end.

(** The identities of a table are 1, 2, ... in the order of its entries. *)
Definition numbered (tbl : CollectionIDTable.t) : Prop :=
  tbl.*2 = seq 1 (length tbl).

(** The filter rule: excluded names are skipped, and so is every name a
    non-empty include set does not list. *)
Definition filter_rule (include exclude : gset string) (nm : string) : Prop :=
  nm ∈ exclude ∨ (include ≠ ∅ ∧ nm ∉ include).

(** What the output holds for one column name: its entry in the branch map,
    its branches with their rows, and whether the registry has it. *)
Definition column (POD : Type) (w : EICRootWriter POD) (nm : string)
    : option string * list (TBranch POD) * bool :=
  (m_collection_branches POD w !! nm,
   filter (λ b, br_name POD b = nm) (branches POD (m_datatree POD w)),
   CollectionIDTable.present (m_collectionIDtable POD w) nm).

(** A producer contributes nothing when the event store is after its turn
    what it was before. *)
Definition contributes_nothing (Obj POD : Type) (podData : Obj → outcome POD)
    (datamodel : list (type_index * string)) (w : EICRootWriter POD)
    (st : EICEventStore POD * list string) (fac : JFactory Obj) : Prop :=
  (Process_factory Obj POD podData datamodel w st fac).1 = st.1.

Arguments mk_JFactory {Obj}.
Arguments GetTag {Obj}.
Arguments GetObjectName {Obj}.
Arguments GetObjectType {Obj}.
Arguments GetNumObjects {Obj}.
Arguments GetAs {Obj}.
Arguments mk_DataVector {POD}.
Arguments name {POD}.
Arguments className {POD}.
Arguments vec {POD}.
Arguments mk_EICEventStore {POD}.
Arguments m_datavectors {POD}.
Arguments mk_TBranch {POD}.
Arguments br_name {POD}.
Arguments br_class {POD}.
Arguments address {POD}.
Arguments baskets {POD}.
Arguments mk_TTree {POD}.
Arguments branches {POD}.
Arguments entries {POD}.
Arguments mk_EICRootWriter {POD}.
Arguments m_OUTPUT_INCLUDE_COLLECTIONS {POD}.
Arguments m_OUTPUT_EXCLUDE_COLLECTIONS {POD}.
Arguments m_collection_branches {POD}.
Arguments m_collectionIDtable {POD}.
Arguments m_datatree {POD}.
Arguments m_evtMDtree {POD}.
Arguments cerr {POD}.
Arguments GetIncludeCollections {POD}.
Arguments GetExcludeCollections {POD}.
Arguments mk_JEvent {Obj POD}.
Arguments GetAllFactories {Obj POD}.
Arguments GetSingle_EICEventStore {Obj POD}.
Arguments DeriveCollectionName {Obj}.
Arguments find_datavector {POD}.
Arguments push_back {POD}.
Arguments swap_into {POD}.
Arguments find_or_create {POD}.
Arguments prepareForWrite {Obj POD}.
Arguments PutPODIODataT {Obj POD}.
Arguments PutPODIOData_from {Obj POD}.
Arguments PutPODIOData {Obj POD}.
Arguments Init {POD}.
Arguments TBranch_SetAddress {POD}.
Arguments TBranch_Fill {POD}.
Arguments on_branch {POD}.
Arguments TTree_Branch {POD}.
Arguments TTree_GetEntries {POD}.
Arguments TTree_SetBranchAddress {POD}.
Arguments TTree_Fill {POD}.
Arguments MakeDataVector {POD}.
Arguments set_datatree {POD}.
Arguments set_collection_branches {POD}.
Arguments set_collectionIDtable {POD}.
Arguments set_evtMDtree {POD}.
Arguments set_cerr {POD}.
Arguments CreateBranch {POD}.
Arguments ResetBranches_body {POD}.
Arguments ResetBranches {POD}.
Arguments Swap {POD}.
Arguments Process_factory {Obj POD}.
Arguments Process {Obj POD}.
Arguments ProcessAll {Obj POD}.
Arguments bails_early {POD}.
Arguments contributes_nothing {Obj POD}.
Arguments Skip {POD}.
Arguments Touch {POD}.
Arguments touch {POD}.
Arguments act {POD}.
Arguments act_list {POD}.
Arguments run {POD}.
Arguments action_of_T {Obj POD}.
Arguments action_from {Obj POD}.
Arguments action_of {Obj POD}.
Arguments with_branch {POD}.
Arguments local_store {Obj POD}.
Arguments materialize {Obj POD}.
Arguments column {POD}.
Arguments ignored {POD}.

(** ** Concrete producers, stores and writers

    Objects and plain data are numbers; the plain data of an object is the
    object itself, except that preparing object 0 throws. *)
Module Scenario.

Definition podData (obj : nat) : outcome nat :=
  match obj with
  | 0 => Exception "conversion failed"
  | S _ => Value obj
  end.

Definition datamodel : list (type_index * string) :=
  [("Cluster", "edm4hep::Cluster"); ("Hit", "edm4hep::Hit")].

(** A factory whose objects can be had as [Cluster]s. *)
Definition cluster_factory (tag object_name : string) (object_type : type_index)
    (objs : list nat) : JFactory nat :=
  {| GetTag := tag; GetObjectName := object_name; GetObjectType := object_type;
     GetNumObjects := length objs;
     GetAs := λ T, if decide (T = "Cluster") then objs else [] |}.

(** The three producers of the name resolution scenario. *)
Definition producer_A : JFactory nat :=
  cluster_factory EmptyString "Cluster" "Cluster" [1; 2].
Definition producer_B : JFactory nat :=
  cluster_factory "merged" "Cluster" "Cluster" [3].
Definition producer_C : JFactory nat :=
  cluster_factory "merged" "SpecialCluster" "SpecialCluster" [4; 5; 6].

(** A producer whose first object cannot be prepared. *)
Definition producer_bad : JFactory nat :=
  cluster_factory EmptyString "Broken" "Broken" [0; 7].

Definition writer_with (include exclude : gset string) : EICRootWriter nat :=
  {| m_OUTPUT_INCLUDE_COLLECTIONS := include;
     m_OUTPUT_EXCLUDE_COLLECTIONS := exclude;
     m_collection_branches := ∅;
     m_collectionIDtable := [];
     m_datatree := {| branches := []; entries := 0 |};
     m_evtMDtree := 0;
     cerr := [] |}.

Definition empty_store : EICEventStore nat := {| m_datavectors := [] |}.

(** An event whose second producer cannot be prepared, with a store
    attached, and the same event with nothing attached. *)
Definition mixed_event : JEvent nat nat :=
  {| GetAllFactories := [producer_A; producer_bad; producer_C];
     GetSingle_EICEventStore := Some empty_store |}.

Definition broken_event : JEvent nat nat :=
  {| GetAllFactories := [producer_bad]; GetSingle_EICEventStore := None |}.

Definition cluster_event : JEvent nat nat :=
  {| GetAllFactories := [producer_A]; GetSingle_EICEventStore := None |}.

Definition idle_event : JEvent nat nat :=
  {| GetAllFactories := []; GetSingle_EICEventStore := None |}.

(** A store that already holds a buffer of three values for [Cluster]. *)
Definition old_store : EICEventStore nat :=
  {| m_datavectors :=
       [{| name := "Cluster"; className := "edm4hep::Cluster"; vec := [9; 9; 9] |}] |}.

End Scenario.

(** ** Finish: the collection type table

    The part of [Finish] that fills [m_collectionInfo]; the writing and
    closing of the trees and of the file is input/output and is left out. *)

(** [std::string] as far as [Finish] uses it.  A position is a number, and
    [npos] is [None]; the count passed to [substr] is a [size_t], computed
    modulo 2^64. *)
Module std_string.

(** [find_first_of] with a one-character argument: the first position of
    the character. *)
Fixpoint find_first_of (s : string) (c : ascii) : option nat :=
  match s with
  | EmptyString => None
  | String a s' =>
      if decide (a = c) then Some 0 else S <$> find_first_of s' c
  end.

(** [find_last_of] with a one-character argument: the last position of the
    character. *)
Fixpoint find_last_of (s : string) (c : ascii) : option nat :=
  match s with
  | EmptyString => None
  | String a s' =>
      match find_last_of s' c with
      | Some i => Some (S i)
      | None => if decide (a = c) then Some 0 else None
      end
  end.

Fixpoint drop (n : nat) (s : string) : string :=
  match n, s with
  | 0, _ => s
  | S n', String _ s' => drop n' s'
  | S _, EmptyString => EmptyString
  end.

Fixpoint take (n : nat) (s : string) : string :=
  match n, s with
  | S n', String a s' => String a (take n' s')
  | _, _ => EmptyString
  end.

(** [a - b - 1] in [size_t] arithmetic. *)
Definition size_t_between (a b : nat) : N :=
  ((N.of_nat a + 2 ^ 64 - N.of_nat b - 1) mod 2 ^ 64)%N.

(** [s.substr(pos, count)]: [std::out_of_range] when [pos] is past the end,
    else the characters from [pos] on, [count] of them or as many as are
    left. *)
Definition substr (s : string) (pos : nat) (count : N) : outcome string :=
  if decide (String.length s < pos) then Exception "basic_string::substr"
  else Value (take (N.to_nat (N.min count (N.of_nat (String.length s - pos))))
                (drop pos s)).

End std_string.

(** The collection type read off a branch class name: nothing when the name
    has no opening or no closing angle bracket (the loop goes on with the
    next name), else what [substr] gives, followed by Collection. *)
Definition collection_type (className : string) : outcome (option string) :=
  match std_string.find_first_of className "<"%char,
        std_string.find_last_of className ">"%char with
  | Some start_pos, Some end_pos =>
      match std_string.substr className (start_pos + 1)
              (std_string.size_t_between end_pos start_pos) with
      | Value t => Value (Some (t +:+ "Collection"))
      | Exception what => Exception what
      end
  | _, _ => Value None
  end.

(** The body of the loop of [Finish] over the names of the registry.  The
    identity of a name of the registry is always there; 0 stands in for a
    missing one. *)
Definition Finish_body (POD : Type) (w : EICRootWriter POD)
    (m_collectionInfo : outcome (list (nat * string * bool))) (nm : string)
    : outcome (list (nat * string * bool)) :=
  match m_collectionInfo with
  | Exception what => Exception what
  | Value info =>
      if bool_decide (std_map.count (m_collection_branches w) nm = 0)
      then Value info
      else
        let collID :=
          default 0 (CollectionIDTable.collectionID (m_collectionIDtable w) nm) in
        match collection_type (default EmptyString (m_collection_branches w !! nm)) with
        | Exception what => Exception what
        | Value None => Value info
        | Value (Some collType) => Value (info ++ [(collID, collType, false)])
        end
  end.

(** [m_collectionInfo] as [Finish] leaves it, or the exception that ends
    [Finish]. *)
Definition Finish_collectionInfo (POD : Type) (w : EICRootWriter POD)
    : outcome (list (nat * string * bool)) :=
  foldl (Finish_body POD w) (Value [])
    (CollectionIDTable.names (m_collectionIDtable w)).

(** The entry of [m_collectionInfo] for the branch in place j (from 0) of
    the events tree, when its class name has the brackets. *)
Definition column_info (POD : Type) (j : nat) (b : TBranch POD)
    : option (nat * string * bool) :=
  match collection_type (br_class b) with
  | Value (Some collType) => Some (S j, collType, false)
  | _ => None
  end.

Arguments column_info {POD}.
Arguments Finish_body {POD}.
Arguments Finish_collectionInfo {POD}.

(** ** More rules and invariants *)

(** The names of a list joined with commas. *)
Fixpoint join (l : list string) : string :=
  match l with
  | [] => EmptyString
  | [nm] => nm
  | nm :: (_ :: _) as l' => nm +:+ String ","%char (join l')
  end.

Fixpoint has_comma (s : string) : bool :=
  match s with
  | EmptyString => false
  | String c s' => bool_decide (c = ","%char) || has_comma s'
  end.

(** The registry, the branch map and the branches of the events tree tell
    the same story: the same names in the same order, none twice, the
    identities 1, 2, ... in that order, the class of each branch under its
    name in the map, and no branch of a name the filters ignore. *)
Definition aligned (POD : Type) (w : EICRootWriter POD) : Prop :=
  CollectionIDTable.names (m_collectionIDtable w)
  = br_name <$> branches (m_datatree w)
  ∧ numbered (m_collectionIDtable w)
  ∧ NoDup (br_name <$> branches (m_datatree w))
  ∧ m_collection_branches w
    = list_to_map ((λ b, (br_name b, br_class b))
                     <$> branches (m_datatree w))
  ∧ ∀ b, b ∈ branches (m_datatree w) →
         ignored w (br_name b) = false.

Arguments aligned {POD}.

(** More concrete cases. *)
Module Cases.

(** An event with the [Cluster] producer and a store attached in which two
    buffers bear different names. *)
Definition attached : EICEventStore nat :=
  {| m_datavectors :=
       [{| name := "Tracks"; className := "vector<edm4hep::Track>"; vec := [8] |};
        {| name := "Cluster"; className := "vector<edm4hep::Cluster>";
           vec := [9; 9; 9] |}] |}.

Definition attached_event : JEvent nat nat :=
  {| GetAllFactories := [Scenario.producer_A];
     GetSingle_EICEventStore := Some attached |}.

(** A producer all of whose objects can be prepared, and one that has no
    mapping to a record type. *)
Definition unmapped : JFactory nat :=
  {| GetTag := EmptyString; GetObjectName := "Geometry";
     GetObjectType := "Geometry"; GetNumObjects := 3; GetAs := λ _, [] |}.

End Cases.

(** * Properties *)

(** ** Collection name resolver *)

Section Resolver.
Context {Obj : Type}.
Implicit Types (fac : JFactory Obj) (T : type_index).

Lemma DeriveCollectionName_empty_tag T edm4hep_name fac :
  GetTag fac = EmptyString →
  DeriveCollectionName T edm4hep_name fac = GetObjectName fac.
Proof. intros Htag. unfold DeriveCollectionName. by rewrite decide_True. Qed.

Lemma DeriveCollectionName_same_type T edm4hep_name fac :
  GetTag fac ≠ EmptyString → GetObjectType fac = T →
  DeriveCollectionName T edm4hep_name fac = GetTag fac.
Proof.
  intros Htag Hty. unfold DeriveCollectionName.
  rewrite decide_False by done. by rewrite decide_True.
Qed.

Lemma DeriveCollectionName_other_type T edm4hep_name fac :
  GetTag fac ≠ EmptyString → GetObjectType fac ≠ T →
  DeriveCollectionName T edm4hep_name fac = GetObjectName fac.
Proof.
  intros Htag Hty. unfold DeriveCollectionName.
  rewrite decide_False by done. by rewrite decide_False.
Qed.

(** C3: for every tag, runtime object type and target type,
    [DeriveCollectionName] returns what the three-way rule of the
    specification gives: the declared output type name for an empty tag,
    the tag when the runtime type is the target type, and the declared
    output type name otherwise.  The value type name passed as first
    argument plays no part. *)
Theorem DeriveCollectionName_implements_rule T edm4hep_name fac :
  DeriveCollectionName T edm4hep_name fac =
  column_name_rule (GetTag fac) (GetObjectName fac) (GetObjectType fac) T.
Proof.
  unfold column_name_rule. destruct (GetTag fac) as [|c tag] eqn:Htag.
  - by apply DeriveCollectionName_empty_tag.
  - case_bool_decide as Hty.
    + rewrite <- Htag. apply DeriveCollectionName_same_type; [|done].
      by rewrite Htag.
    + apply DeriveCollectionName_other_type; [by rewrite Htag | done].
Qed.

End Resolver.

(** The three producers of the specification's scenario. *)
Example DeriveCollectionName_scenario :
  DeriveCollectionName "Cluster" "edm4hep::Cluster" Scenario.producer_A = "Cluster"
  ∧ DeriveCollectionName "Cluster" "edm4hep::Cluster" Scenario.producer_B = "merged"
  ∧ DeriveCollectionName "Cluster" "edm4hep::Cluster" Scenario.producer_C
    = "SpecialCluster".
Proof. done. Qed.

(** ** Lists: finding by a property that an update keeps *)

Section ListFind.
Context {A : Type} (P : A → Prop) `{!∀ x, Decision (P x)}.

Lemma list_find_fst_cons x (l : list A) :
  fst <$> list_find P (x :: l) =
  if decide (P x) then Some 0 else S <$> (fst <$> list_find P l).
Proof.
  simpl. destruct (decide (P x)); [done|]. by destruct (list_find P l) as [[]|].
Qed.

Lemma list_find_alter_fst (f : A → A) i (l : list A) :
  (∀ x, P (f x) ↔ P x) →
  fst <$> list_find P (alter f i l) = fst <$> list_find P l.
Proof.
  intros Hf. revert i. induction l as [|x l IH]; intros [|i]; try done.
  - change (alter f 0 (x :: l)) with (f x :: l). rewrite !list_find_fst_cons.
    destruct (decide (P (f x))) as [H1|H1], (decide (P x)) as [H2|H2];
      try done; [destruct H2; by apply Hf | destruct H1; by apply Hf].
  - change (alter f (S i) (x :: l)) with (x :: alter f i l).
    rewrite !list_find_fst_cons. by rewrite IH.
Qed.

Lemma filter_alter_other (f : A → A) i (l : list A) x :
  l !! i = Some x → ¬ P x → ¬ P (f x) → filter P (alter f i l) = filter P l.
Proof.
  revert i. induction l as [|y l IH]; intros [|i] Hx Hn Hfn; try done.
  - simpl in Hx. injection Hx as ->.
    change (alter f 0 (x :: l)) with (f x :: l).
    by rewrite !filter_cons, !decide_False.
  - change (alter f (S i) (y :: l)) with (y :: alter f i l).
    rewrite !filter_cons. by rewrite (IH i).
Qed.

Lemma filter_fmap_keeps (f : A → A) (l : list A) :
  (∀ x, P (f x) ↔ P x) → filter P (f <$> l) = f <$> filter P l.
Proof.
  intros Hf. induction l as [|x l IH]; [done|].
  rewrite fmap_cons, !filter_cons, IH.
  destruct (decide (P (f x))) as [H1|H1], (decide (P x)) as [H2|H2];
    try done; [destruct H2; by apply Hf | destruct H1; by apply Hf].
Qed.

End ListFind.

(** ** Column materializer *)

Section Materializer.
Context {Obj POD : Type}.
Variable podData : Obj → outcome POD.
Implicit Types (w : EICRootWriter POD) (fac : JFactory Obj).
Implicit Types (store : EICEventStore POD) (dv : DataVector POD).
Implicit Types (data : list POD) (nm : string).

Lemma count_nonzero (s : gset string) nm : std_set.count s nm ≠ 0 ↔ nm ∈ s.
Proof. unfold std_set.count. case_decide; naive_solver. Qed.

Lemma count_zero (s : gset string) nm : std_set.count s nm = 0 ↔ nm ∉ s.
Proof. unfold std_set.count. case_decide; naive_solver. Qed.

Lemma empty_true (s : gset string) : std_set.empty s = true ↔ s = ∅.
Proof. unfold std_set.empty. by rewrite bool_decide_eq_true. Qed.

Lemma empty_false (s : gset string) : std_set.empty s = false ↔ s ≠ ∅.
Proof. unfold std_set.empty. by rewrite bool_decide_eq_false. Qed.

(** The materializer bails out exactly when the rule holds with the
    exclude set in the place of the include set. *)
Lemma bails_early_true w nm :
  bails_early w nm = true ↔
  filter_rule (GetExcludeCollections w) (GetExcludeCollections w) nm.
Proof.
  unfold bails_early, filter_rule.
  rewrite orb_true_iff, andb_true_iff, negb_true_iff, !bool_decide_eq_true.
  by rewrite count_nonzero, count_zero, empty_false.
Qed.

(** Which comes down to the exclude set having a member at all. *)
Lemma bails_early_nonempty w nm :
  bails_early w nm = true ↔ GetExcludeCollections w ≠ ∅.
Proof.
  rewrite bails_early_true. unfold filter_rule. split.
  - intros [Hin | [Hne _]]; [set_solver | done].
  - intros Hne. destruct (decide (nm ∈ GetExcludeCollections w)); auto.
Qed.

Lemma PutPODIODataT_bail T cls w fac store :
  bails_early w (DeriveCollectionName T cls fac) = true →
  PutPODIODataT podData T cls w fac store = (Value EmptyString, store).
Proof.
  unfold bails_early, PutPODIODataT.
  destruct (bool_decide (std_set.count _ _ ≠ 0)); [done|]. simpl.
  by intros ->.
Qed.

Lemma prepareForWrite_Value (v : list Obj) data :
  prepareForWrite podData v = Value data ↔
  Forall2 (λ obj d, podData obj = Value d) v data.
Proof.
  revert data. induction v as [|obj v IH]; intros data; simpl.
  - split; [intros [= <-]; constructor | by inversion 1].
  - split.
    + destruct (podData obj) as [d|] eqn:Hd; [|done].
      destruct (prepareForWrite podData v) as [ds|] eqn:Hds; [|done].
      intros [= <-]. constructor; [done|]. by apply IH.
    + inversion 1 as [|? d ? ds Hd Hds]; subst. rewrite Hd.
      apply IH in Hds. by rewrite Hds.
Qed.

Lemma prepareForWrite_Exception (v : list Obj) what :
  prepareForWrite podData v = Exception what →
  ∃ obj, obj ∈ v ∧ podData obj = Exception what.
Proof.
  induction v as [|obj v IH]; simpl; [done|].
  destruct (podData obj) as [d|what'] eqn:Hd.
  - destruct (prepareForWrite podData v) as [ds|what'] eqn:Hds; [done|].
    intros [= <-]. destruct IH as (o & Ho & Hex); [done|].
    exists o. split; [by right | done].
  - intros [= <-]. exists obj. split; [by left | done].
Qed.

Lemma PutPODIODataT_run T cls w fac store :
  bails_early w (DeriveCollectionName T cls fac) = false →
  PutPODIODataT podData T cls w fac store =
  let nm := DeriveCollectionName T cls fac in
  let '(store1, databuffer) := find_or_create store nm cls in
  match prepareForWrite podData (GetAs fac T) with
  | Exception what => (Exception what, store1)
  | Value data => (Value nm, swap_into store1 databuffer data)
  end.
Proof.
  unfold bails_early, PutPODIODataT, find_or_create.
  intros [H1 H2]%orb_false_iff. by rewrite H1, H2.
Qed.

Lemma find_datavector_Some store nm i :
  find_datavector store nm = Some i ↔
  ∃ dv, m_datavectors store !! i = Some dv ∧ name dv = nm
        ∧ ∀ j dv', m_datavectors store !! j = Some dv' → j < i → name dv' ≠ nm.
Proof.
  unfold find_datavector. split.
  - destruct (list_find _ _) as [[i' dv]|] eqn:Hf; [|done].
    intros [= <-]. apply list_find_Some in Hf. by exists dv.
  - intros (dv & Hdv & Hnm & Hfirst).
    assert (list_find (λ dv, name dv = nm) (m_datavectors store) = Some (i, dv))
      as ->; [|done].
    by apply list_find_Some.
Qed.

Lemma find_datavector_None store nm :
  find_datavector store nm = None ↔
  Forall (λ dv, name dv ≠ nm) (m_datavectors store).
Proof.
  unfold find_datavector. by rewrite fmap_None, list_find_None.
Qed.

Lemma find_or_create_found store nm cls :
  let '(store1, i) := find_or_create store nm cls in
  find_datavector store1 nm = Some i.
Proof.
  unfold find_or_create.
  destruct (find_datavector store nm) as [i|] eqn:Hf; [done|]. simpl.
  apply find_datavector_Some. simpl.
  exists {| name := nm; className := cls; vec := [] |}. split_and!.
  - rewrite lookup_app_r by done. by rewrite Nat.sub_diag.
  - done.
  - intros j dv' Hj Hlt. rewrite lookup_app_l in Hj by done.
    apply find_datavector_None in Hf.
    by eapply Forall_lookup_1 in Hf.
Qed.

Lemma find_datavector_swap_into store nm i data :
  find_datavector (swap_into store i data) nm = find_datavector store nm.
Proof.
  unfold find_datavector, swap_into. simpl. by apply list_find_alter_fst.
Qed.

(** The include set of the writer plays no part in [PutPODIODataT]. *)
Lemma PutPODIODataT_reads_exclude_only T cls w w' fac store :
  GetExcludeCollections w' = GetExcludeCollections w →
  PutPODIODataT podData T cls w' fac store
  = PutPODIODataT podData T cls w fac store.
Proof. intros Hex. unfold PutPODIODataT. by rewrite Hex. Qed.

(** C8: when either early return of [PutPODIODataT] is taken (the derived
    name is in the exclude set, or the set read for the include test has
    members and the name is not one of them), the call returns the empty
    name and the event store it was given, buffers and contents untouched. *)
Theorem PutPODIODataT_skip_no_mutation T cls w fac store :
  let nm := DeriveCollectionName T cls fac in
  nm ∈ GetExcludeCollections w
  ∨ (GetExcludeCollections w ≠ ∅ ∧ nm ∉ GetExcludeCollections w) →
  PutPODIODataT podData T cls w fac store = (Value EmptyString, store).
Proof.
  intros nm Hskip. apply PutPODIODataT_bail.
  by apply bails_early_true.
Qed.

(** C4: when a materialization goes through (no early return, every object
    prepared), the buffer of the derived name, the one found in the store
    or else the one appended to it, afterwards holds exactly the plain data
    of the producer's objects for this event, whatever it held before; its
    length is the number of those objects, and no other buffer changes. *)
Theorem PutPODIODataT_replaces_storage T cls w fac store data :
  let nm := DeriveCollectionName T cls fac in
  bails_early w nm = false →
  Forall2 (λ obj d, podData obj = Value d) (GetAs fac T) data →
  ∃ store' i dv,
    PutPODIODataT podData T cls w fac store = (Value nm, store')
    ∧ i = default (length (m_datavectors store)) (find_datavector store nm)
    ∧ find_datavector store' nm = Some i
    ∧ m_datavectors store' !! i = Some dv
    ∧ name dv = nm
    ∧ vec dv = data
    ∧ length (vec dv) = length (GetAs fac T)
    ∧ ∀ j, j < length (m_datavectors store) → j ≠ i →
           m_datavectors store' !! j = m_datavectors store !! j.
Proof.
  intros nm Hrun Hdata. rewrite PutPODIODataT_run by done.
  fold nm. apply prepareForWrite_Value in Hdata as Hprep. rewrite Hprep.
  pose proof (find_or_create_found store nm cls) as Hfound.
  assert (∀ j, j < length (m_datavectors store) →
            m_datavectors (find_or_create store nm cls).1 !! j
            = m_datavectors store !! j) as Hframe.
  { intros j Hj. unfold find_or_create.
    destruct (find_datavector store nm); [done|]. simpl.
    by rewrite lookup_app_l. }
  assert ((find_or_create store nm cls).2
          = default (length (m_datavectors store)) (find_datavector store nm))
    as Hidx.
  { unfold find_or_create. by destruct (find_datavector store nm). }
  destruct (find_or_create store nm cls) as [store1 i] eqn:Hfc. simpl in *.
  rewrite Hfc.
  apply find_datavector_Some in Hfound as Hdv.
  destruct Hdv as (dv & Hdv & Hnm & _).
  exists (swap_into store1 i data), i,
    {| name := name dv; className := className dv; vec := data |}.
  split_and!; try done.
  - by rewrite find_datavector_swap_into.
  - unfold swap_into. simpl. rewrite list_lookup_alter, decide_True by done.
    by rewrite Hdv.
  - simpl. symmetry. by eapply Forall2_length.
  - intros j Hj Hne. unfold swap_into. simpl.
    rewrite list_lookup_alter, decide_False by done. by apply Hframe.
Qed.

End Materializer.

(** The buffer that held three values for [Cluster] holds the two values of
    the producer after the call. *)
Lemma PutPODIODataT_replaces_storage_witness :
  ∃ store' i dv,
    PutPODIODataT Scenario.podData "Cluster" "edm4hep::Cluster"
      (Scenario.writer_with ∅ ∅) Scenario.producer_A Scenario.old_store
    = (Value "Cluster", store')
    ∧ i = 0
    ∧ find_datavector store' "Cluster" = Some i
    ∧ m_datavectors store' !! i = Some dv
    ∧ name dv = "Cluster"
    ∧ vec dv = [1; 2]
    ∧ length (vec dv) = 2
    ∧ ∀ j, j < 1 → j ≠ i →
           m_datavectors store' !! j = m_datavectors Scenario.old_store !! j.
Proof.
  apply (PutPODIODataT_replaces_storage Scenario.podData "Cluster"
           "edm4hep::Cluster" (Scenario.writer_with ∅ ∅) Scenario.producer_A
           Scenario.old_store [1; 2]).
  - reflexivity.
  - repeat constructor.
Defined.

Lemma PutPODIODataT_skip_no_mutation_witness :
  PutPODIODataT Scenario.podData "Cluster" "edm4hep::Cluster"
    (Scenario.writer_with ∅ {["Cluster"]}) Scenario.producer_A Scenario.old_store
  = (Value EmptyString, Scenario.old_store).
Proof.
  apply (PutPODIODataT_skip_no_mutation Scenario.podData "Cluster"
           "edm4hep::Cluster" (Scenario.writer_with ∅ {["Cluster"]})
           Scenario.producer_A Scenario.old_store).
  left. simpl. apply elem_of_singleton. reflexivity.
Defined.

(** C2: at an include set that has members and does not list the derived
    name, with nothing excluded, [PutPODIODataT] does not skip: it reads the
    exclude set where the include set was meant, and materializes the
    collection.  With an empty include set and an exclude set that lists
    some other name, the same reading makes it skip a collection that the
    rule lets through. *)
Theorem PutPODIODataT_include_test_reads_exclude :
  filter_rule {["Hit"]} ∅ "Cluster"
  ∧ PutPODIODataT Scenario.podData "Cluster" "edm4hep::Cluster"
      (Scenario.writer_with {["Hit"]} ∅) Scenario.producer_A Scenario.empty_store
    = (Value "Cluster",
       {| m_datavectors :=
            [{| name := "Cluster"; className := "edm4hep::Cluster";
                vec := [1; 2] |}] |})
  ∧ ¬ filter_rule ∅ {["DebugHits"]} "Cluster"
  ∧ PutPODIODataT Scenario.podData "Cluster" "edm4hep::Cluster"
      (Scenario.writer_with ∅ {["DebugHits"]}) Scenario.producer_A
      Scenario.empty_store
    = (Value EmptyString, Scenario.empty_store).
Proof.
  split_and!.
  - right. split; [apply non_empty_singleton_L|].
    by intros ?%elem_of_singleton.
  - reflexivity.
  - intros [Hin | [Hne _]]; [by apply elem_of_singleton in Hin | done].
  - reflexivity.
Qed.


(** ** Schema synchronizer *)

Section Synchronizer.
Context {POD : Type}.
Implicit Types (w : EICRootWriter POD) (t : TTree POD) (b : TBranch POD).
Implicit Types (dv : DataVector POD) (store : EICEventStore POD) (nm : string).

(** *** A call through the pointer to the branch just appended *)

Lemma on_branch_last (l : list (TBranch POD)) b n f :
  on_branch (length l) f {| branches := l ++ [b]; entries := n |}
  = {| branches := l ++ [f b]; entries := n |}.
Proof.
  unfold on_branch. simpl. f_equal.
  rewrite alter_app_r_alt by done. by rewrite Nat.sub_diag.
Qed.

Lemma iter_on_branch_last k (l : list (TBranch POD)) b n f :
  Nat.iter k (on_branch (length l) f) {| branches := l ++ [b]; entries := n |}
  = {| branches := l ++ [Nat.iter k f b]; entries := n |}.
Proof.
  induction k as [|k IH]; simpl; [done|]. rewrite IH. apply on_branch_last.
Qed.

Lemma iter_TBranch_Fill k b :
  Nat.iter k TBranch_Fill b
  = {| br_name := br_name b; br_class := br_class b; address := address b;
       baskets := baskets b ++ replicate k (address b) |}.
Proof.
  induction k as [|k IH]; simpl.
  - destruct b. simpl. by rewrite app_nil_r.
  - rewrite IH. unfold TBranch_Fill. simpl. f_equal.
    rewrite <- app_assoc. f_equal.
    change (address b :: replicate k (address b))
      with (replicate (S k) (address b)).
    by rewrite replicate_S_end.
Qed.

(** [CreateBranch] appends one branch: bound to the data vector, with one
    empty row for every entry the tree already has. *)
Lemma CreateBranch_eq w dv :
  CreateBranch w dv =
  {| m_OUTPUT_INCLUDE_COLLECTIONS := m_OUTPUT_INCLUDE_COLLECTIONS w;
     m_OUTPUT_EXCLUDE_COLLECTIONS := m_OUTPUT_EXCLUDE_COLLECTIONS w;
     m_collection_branches := <[name dv := className dv]> (m_collection_branches w);
     m_collectionIDtable := m_collectionIDtable w;
     m_datatree :=
       {| branches := branches (m_datatree w) ++
            [{| br_name := name dv; br_class := className dv;
                address := vec dv;
                baskets := replicate (entries (m_datatree w)) [] |}];
          entries := entries (m_datatree w) |};
     m_evtMDtree := m_evtMDtree w;
     cerr := cerr w |}.
Proof.
  unfold CreateBranch, TTree_Branch, set_datatree, set_collection_branches,
    TTree_GetEntries, MakeDataVector. simpl.
  rewrite on_branch_last. simpl. rewrite iter_on_branch_last, on_branch_last.
  by rewrite iter_TBranch_Fill.
Qed.

(** *** Rebinding a branch by name *)

Lemma TTree_SetBranchAddress_entries t nm a :
  entries (TTree_SetBranchAddress t nm a) = entries t.
Proof.
  unfold TTree_SetBranchAddress. by destruct (list_find _ _) as [[??]|].
Qed.

Lemma TTree_SetBranchAddress_length t nm a :
  length (branches (TTree_SetBranchAddress t nm a)) = length (branches t).
Proof.
  unfold TTree_SetBranchAddress. destruct (list_find _ _) as [[??]|]; [|done].
  simpl. by rewrite length_alter.
Qed.

(** Rebinding keeps every branch in its place with its name, class and
    rows; the address either stays or becomes the new one, the latter only
    on a branch of that name. *)
Lemma TTree_SetBranchAddress_lookup t nm a j b :
  branches t !! j = Some b →
  ∃ b', branches (TTree_SetBranchAddress t nm a) !! j = Some b'
        ∧ br_name b' = br_name b ∧ br_class b' = br_class b
        ∧ baskets b' = baskets b
        ∧ (address b' = address b ∨ (br_name b = nm ∧ address b' = a)).
Proof.
  intros Hb. unfold TTree_SetBranchAddress.
  destruct (list_find _ _) as [[i bi]|] eqn:Hfind; [|by eauto 10].
  apply list_find_Some in Hfind as (Hi & Hnm & _). simpl.
  rewrite list_lookup_alter. case_decide as Hij.
  - subst j. rewrite Hb. simpl. eexists; split; [done|]. simpl.
    split_and!; try done. right. assert (bi = b) as -> by congruence. done.
  - by eauto 10.
Qed.

(** *** One turn of the loop of [ResetBranches] *)

Lemma ResetBranches_body_ignored w dv :
  ignored w (name dv) = true → ResetBranches_body w dv = w.
Proof.
  unfold ignored, ResetBranches_body.
  destruct (bool_decide (std_set.count _ _ ≠ 0)); [done|]. simpl.
  by intros ->.
Qed.

Lemma ResetBranches_body_tree w dv :
  ignored w (name dv) = false →
  m_datatree (ResetBranches_body w dv)
  = TTree_SetBranchAddress (m_datatree (with_branch w dv)) (name dv) (vec dv).
Proof.
  unfold ignored, ResetBranches_body, with_branch.
  intros [-> ->]%orb_false_iff.
  by destruct (negb (CollectionIDTable.present _ _)).
Qed.

Lemma with_branch_entries w dv :
  entries (m_datatree (with_branch w dv)) = entries (m_datatree w).
Proof.
  unfold with_branch. case_bool_decide; [|done]. by rewrite CreateBranch_eq.
Qed.

Lemma with_branch_old w dv j b :
  branches (m_datatree w) !! j = Some b →
  branches (m_datatree (with_branch w dv)) !! j = Some b.
Proof.
  intros Hb. unfold with_branch. case_bool_decide; [|done].
  rewrite CreateBranch_eq. simpl. by apply lookup_app_l_Some.
Qed.

Lemma with_branch_new w dv j b :
  length (branches (m_datatree w)) ≤ j →
  branches (m_datatree (with_branch w dv)) !! j = Some b →
  b = {| br_name := name dv; br_class := className dv; address := vec dv;
         baskets := replicate (entries (m_datatree w)) [] |}.
Proof.
  intros Hj. unfold with_branch. case_bool_decide.
  - rewrite CreateBranch_eq. simpl. rewrite lookup_app_r by done.
    by intros [_ <-]%list_lookup_singleton_Some.
  - intros Hb%lookup_lt_Some. lia.
Qed.

Lemma ResetBranches_body_entries w dv :
  entries (m_datatree (ResetBranches_body w dv)) = entries (m_datatree w).
Proof.
  destruct (ignored w (name dv)) eqn:Hig.
  - by rewrite ResetBranches_body_ignored.
  - rewrite ResetBranches_body_tree by done.
    by rewrite TTree_SetBranchAddress_entries, with_branch_entries.
Qed.

(** A branch that was there stays in its place with its rows; it is rebound
    only to the data vector of the turn, and only if it bears its name. *)
Lemma ResetBranches_body_old w dv j b :
  branches (m_datatree w) !! j = Some b →
  ∃ b', branches (m_datatree (ResetBranches_body w dv)) !! j = Some b'
        ∧ br_name b' = br_name b ∧ br_class b' = br_class b
        ∧ baskets b' = baskets b
        ∧ (address b' = address b ∨ (br_name b = name dv ∧ address b' = vec dv)).
Proof.
  intros Hb. destruct (ignored w (name dv)) eqn:Hig.
  - rewrite ResetBranches_body_ignored by done. by eauto 10.
  - rewrite ResetBranches_body_tree by done.
    apply TTree_SetBranchAddress_lookup. by apply with_branch_old.
Qed.

(** A branch that was not there is the branch of the data vector of the
    turn, backfilled with one empty row per entry of the tree. *)
Lemma ResetBranches_body_new w dv j b' :
  length (branches (m_datatree w)) ≤ j →
  branches (m_datatree (ResetBranches_body w dv)) !! j = Some b' →
  br_name b' = name dv ∧ address b' = vec dv
  ∧ baskets b' = replicate (entries (m_datatree w)) [].
Proof.
  intros Hj. destruct (ignored w (name dv)) eqn:Hig.
  - rewrite ResetBranches_body_ignored by done.
    intros Hb%lookup_lt_Some. lia.
  - rewrite ResetBranches_body_tree by done. intros Hb'.
    assert (is_Some (branches (m_datatree (with_branch w dv)) !! j))
      as [b Hb].
    { apply lookup_lt_is_Some. apply lookup_lt_Some in Hb'.
      by rewrite TTree_SetBranchAddress_length in Hb'. }
    destruct (TTree_SetBranchAddress_lookup _ (name dv) (vec dv) _ _ Hb)
      as (b2 & Hb2 & Hn & _ & Hrows & Haddr).
    assert (b2 = b') as -> by congruence.
    apply with_branch_new in Hb as ->; [|done]. simpl in *.
    split_and!; [done| |done]. by destruct Haddr as [?|[_ ?]].
Qed.

(** *** The whole loop *)

Lemma ResetBranches_snoc w (l : list (DataVector POD)) dv :
  ResetBranches w {| m_datavectors := l ++ [dv] |}
  = ResetBranches_body (ResetBranches w {| m_datavectors := l |}) dv.
Proof. unfold ResetBranches. simpl. by rewrite foldl_snoc. Qed.

Lemma ResetBranches_entries w store :
  entries (m_datatree (ResetBranches w store)) = entries (m_datatree w).
Proof.
  destruct store as [l]. induction l as [|dv l IH] using rev_ind; [done|].
  by rewrite ResetBranches_snoc, ResetBranches_body_entries.
Qed.

Lemma ResetBranches_old w store j b :
  branches (m_datatree w) !! j = Some b →
  ∃ b', branches (m_datatree (ResetBranches w store)) !! j = Some b'
        ∧ br_name b' = br_name b ∧ br_class b' = br_class b
        ∧ baskets b' = baskets b.
Proof.
  intros Hb. destruct store as [l].
  induction l as [|dv l IH] using rev_ind; [by eauto 10|].
  destruct IH as (b1 & Hb1 & Hn1 & Hc1 & Hr1).
  rewrite ResetBranches_snoc.
  destruct (ResetBranches_body_old _ dv _ _ Hb1) as (b2 & Hb2 & Hn2 & Hc2 & Hr2 & _).
  exists b2. split_and!; [done|congruence..].
Qed.

(** Every branch the loop adds has one empty row per entry of the tree and
    is bound to a data vector of the store that bears its name. *)
Lemma ResetBranches_new w store j b' :
  length (branches (m_datatree w)) ≤ j →
  branches (m_datatree (ResetBranches w store)) !! j = Some b' →
  baskets b' = replicate (entries (m_datatree w)) []
  ∧ ∃ dv, dv ∈ m_datavectors store ∧ name dv = br_name b' ∧ vec dv = address b'.
Proof.
  intros Hj. destruct store as [l]. revert b'.
  induction l as [|dv l IH] using rev_ind; intros b'.
  - unfold ResetBranches. simpl. intros Hb%lookup_lt_Some. lia.
  - rewrite ResetBranches_snoc. intros Hb'. simpl.
    set (w1 := ResetBranches w {| m_datavectors := l |}) in *.
    destruct (decide (j < length (branches (m_datatree w1)))) as [Hlt|Hge].
    + apply lookup_lt_is_Some in Hlt as [b1 Hb1].
      destruct (IH _ Hb1) as (Hrows & dv1 & Hin & Hnm & Hvec).
      destruct (ResetBranches_body_old _ dv _ _ Hb1)
        as (b2 & Hb2 & Hn2 & _ & Hr2 & Haddr).
      assert (b2 = b') as -> by congruence.
      split; [congruence|]. destruct Haddr as [Ha | [Hn Ha]].
      * exists dv1. simpl in Hin. rewrite elem_of_app. split_and!; [by left|congruence..].
      * exists dv. rewrite elem_of_app, list_elem_of_singleton.
        split_and!; [by right|congruence..].
    + destruct (ResetBranches_body_new w1 dv j b') as (Hn & Ha & Hrows);
        [lia|done|].
      split.
      * by rewrite Hrows; unfold w1; rewrite ResetBranches_entries.
      * exists dv. rewrite elem_of_app, list_elem_of_singleton.
        split_and!; [by right|done..].
Qed.

End Synchronizer.

(** ** The filters of the synchronizer *)

Section Filters.
Context {POD : Type}.
Implicit Types (w : EICRootWriter POD) (dv : DataVector POD).
Implicit Types (store : EICEventStore POD) (nm : string).

(** The synchronizer ignores a data vector exactly when the filter rule
    holds of its name. *)
Lemma ignored_true w nm :
  ignored w nm = true ↔
  filter_rule (m_OUTPUT_INCLUDE_COLLECTIONS w) (m_OUTPUT_EXCLUDE_COLLECTIONS w) nm.
Proof.
  unfold ignored, filter_rule.
  rewrite orb_true_iff, andb_true_iff, negb_true_iff, !bool_decide_eq_true.
  by rewrite count_nonzero, count_zero, empty_false.
Qed.

Lemma register_present (tbl : CollectionIDTable.t) nm :
  nm ∈ CollectionIDTable.names tbl → register tbl nm = tbl.
Proof.
  intros Hin. unfold register, CollectionIDTable.present.
  by rewrite bool_decide_eq_true_2.
Qed.

Lemma register_absent (tbl : CollectionIDTable.t) nm :
  nm ∉ CollectionIDTable.names tbl →
  register tbl nm = tbl ++ [(nm, S (length tbl))].
Proof.
  intros Hin. unfold register, CollectionIDTable.add, CollectionIDTable.present.
  by rewrite bool_decide_eq_false_2.
Qed.

Lemma register_names (tbl : CollectionIDTable.t) nm :
  CollectionIDTable.names (register tbl nm) =
  CollectionIDTable.names tbl
  ++ (if decide (nm ∈ CollectionIDTable.names tbl) then [] else [nm]).
Proof.
  case_decide.
  - rewrite register_present by done. by rewrite app_nil_r.
  - rewrite register_absent by done. unfold CollectionIDTable.names.
    by rewrite fmap_app.
Qed.

(** The loop body when the data vector is not ignored. *)
Lemma ResetBranches_body_run w dv :
  ignored w (name dv) = false →
  ResetBranches_body w dv =
  {| m_OUTPUT_INCLUDE_COLLECTIONS := m_OUTPUT_INCLUDE_COLLECTIONS w;
     m_OUTPUT_EXCLUDE_COLLECTIONS := m_OUTPUT_EXCLUDE_COLLECTIONS w;
     m_collection_branches := m_collection_branches (with_branch w dv);
     m_collectionIDtable := register (m_collectionIDtable w) (name dv);
     m_datatree :=
       TTree_SetBranchAddress (m_datatree (with_branch w dv)) (name dv) (vec dv);
     m_evtMDtree := m_evtMDtree w;
     cerr := cerr w |}.
Proof.
  unfold ignored, ResetBranches_body, with_branch, register.
  intros [-> ->]%orb_false_iff.
  case_bool_decide; [rewrite CreateBranch_eq|]; simpl;
    by destruct (negb (CollectionIDTable.present _ _)).
Qed.

Lemma ResetBranches_body_sets w dv :
  m_OUTPUT_INCLUDE_COLLECTIONS (ResetBranches_body w dv)
  = m_OUTPUT_INCLUDE_COLLECTIONS w
  ∧ m_OUTPUT_EXCLUDE_COLLECTIONS (ResetBranches_body w dv)
    = m_OUTPUT_EXCLUDE_COLLECTIONS w.
Proof.
  destruct (ignored w (name dv)) eqn:Hig.
  - by rewrite ResetBranches_body_ignored.
  - by rewrite ResetBranches_body_run.
Qed.

Lemma ResetBranches_sets w store :
  m_OUTPUT_INCLUDE_COLLECTIONS (ResetBranches w store)
  = m_OUTPUT_INCLUDE_COLLECTIONS w
  ∧ m_OUTPUT_EXCLUDE_COLLECTIONS (ResetBranches w store)
    = m_OUTPUT_EXCLUDE_COLLECTIONS w.
Proof.
  destruct store as [l]. induction l as [|dv l IH] using rev_ind; [done|].
  rewrite ResetBranches_snoc.
  destruct (ResetBranches_body_sets (ResetBranches w {| m_datavectors := l |}) dv)
    as [-> ->]. done.
Qed.

Lemma ResetBranches_scalars w store :
  m_evtMDtree (ResetBranches w store) = m_evtMDtree w
  ∧ cerr (ResetBranches w store) = cerr w.
Proof.
  destruct store as [l]. induction l as [|dv l [IH1 IH2]] using rev_ind; [done|].
  rewrite ResetBranches_snoc.
  destruct (ignored (ResetBranches w {| m_datavectors := l |}) (name dv)) eqn:Hig.
  - by rewrite ResetBranches_body_ignored.
  - by rewrite ResetBranches_body_run.
Qed.

(** A turn for a data vector of another name leaves the column alone. *)
Lemma ResetBranches_body_column_other w dv nm :
  name dv ≠ nm → column (ResetBranches_body w dv) nm = column w nm.
Proof.
  intros Hne. destruct (ignored w (name dv)) eqn:Hig.
  { by rewrite ResetBranches_body_ignored. }
  rewrite ResetBranches_body_run by done. unfold column. simpl.
  f_equal; [f_equal|].
  - unfold with_branch. case_bool_decide; [|done].
    rewrite CreateBranch_eq. simpl. by rewrite lookup_insert_ne.
  - transitivity (filter (λ b, br_name b = nm)
                    (branches (m_datatree (with_branch w dv)))).
    + unfold TTree_SetBranchAddress.
      destruct (list_find _ _) as [[i bi]|] eqn:Hfind; [|done].
      apply list_find_Some in Hfind as (Hi & Hnm & _). simpl.
      apply (filter_alter_other _ _ _ _ bi); [done| |]; simpl; congruence.
    + unfold with_branch. case_bool_decide; [|done].
      rewrite CreateBranch_eq. simpl.
      rewrite filter_app, filter_cons_False by done.
      by rewrite filter_nil, app_nil_r.
  - unfold CollectionIDTable.present. apply bool_decide_ext.
    rewrite register_names, elem_of_app.
    split; [|by left]. intros [Hin|Hin]; [done|]. case_decide.
    + by apply elem_of_nil in Hin.
    + apply list_elem_of_singleton in Hin. congruence.
Qed.

(** The loop creates, rebinds and registers nothing for an ignored name. *)
Lemma ResetBranches_column_ignored w store nm :
  ignored w nm = true → column (ResetBranches w store) nm = column w nm.
Proof.
  intros Hig. destruct store as [l].
  induction l as [|dv l IH] using rev_ind; [done|].
  rewrite ResetBranches_snoc.
  assert (ignored (ResetBranches w {| m_datavectors := l |}) nm = true)
    as Hig1.
  { destruct (ResetBranches_sets w {| m_datavectors := l |}) as [Hi He].
    unfold ignored in *. by rewrite Hi, He. }
  destruct (decide (name dv = nm)) as [<-|Hne].
  - by rewrite ResetBranches_body_ignored.
  - by rewrite ResetBranches_body_column_other.
Qed.

End Filters.

(** ** Configuration: the comma-separated lists of [Init] *)

Section Configuration.

Lemma fields_nonempty s : fields s ≠ [].
Proof.
  destruct s as [|c s]; simpl; [done|].
  case_decide; [done|]. by destruct (fields s).
Qed.

(** One [getline] takes the first field; the input ends with it or the
    other fields are those of what is left unread. *)
Lemma extract_fields s :
  fields s =
  let '(field, rest, eof) := sstream.extract ","%char s in
  if eof then [field] else field :: fields rest.
Proof.
  induction s as [|c s IH]; simpl; [done|].
  case_decide; [done|].
  rewrite IH. destruct (sstream.extract _ s) as [[field rest] eof].
  by destruct eof.
Qed.

Lemma extract_shorter s :
  let '(field, rest, eof) := sstream.extract ","%char s in
  String.length rest ≤ String.length s
  ∧ (eof = false → String.length rest < String.length s).
Proof.
  induction s as [|c s IH]; simpl; [split; [lia|done]|].
  case_decide; [split; lia|].
  destruct (sstream.extract _ s) as [[field rest] eof].
  destruct IH as [Hle Hlt]. split; [lia|]. intros He. specialize (Hlt He). lia.
Qed.

(** The loop of [Init] inserts every field and leaves the stream in a state
    that ends the loop, whenever the fuel exceeds the length of the input. *)
Lemma fields_loop_ends fuel s (set : gset string) :
  String.length s < fuel →
  ∃ ss, fields_loop fuel (sstream.open s) set
        = (list_to_set (fields s) ∪ set, ss)
        ∧ sstream.good ss = false.
Proof.
  revert s set. induction fuel as [|fuel IH]; intros s set Hfuel; [lia|].
  simpl. unfold sstream.getline. simpl.
  pose proof (extract_fields s) as Hf. pose proof (extract_shorter s) as Hlen.
  destruct (sstream.extract _ s) as [[field rest] eof] eqn:Hex.
  destruct eof.
  - exists {| sstream.unread := rest; sstream.eofbit := true;
              sstream.failbit := bool_decide (s = EmptyString) |}.
    split; [|done].
    destruct fuel as [|fuel]; simpl; rewrite Hf; simpl; f_equal;
      unfold std_set.insert; by rewrite (right_id_L ∅ (∪)).
  - assert (s ≠ EmptyString) as Hs.
    { intros ->. simpl in Hex. congruence. }
    rewrite bool_decide_eq_false_2 by done.
    destruct Hlen as [_ Hlen]. specialize (Hlen eq_refl).
    destruct (IH rest (std_set.insert field set)) as (ss & Hloop & Hgood);
      [lia|].
    exists ss. split; [|done]. unfold sstream.open in Hloop. rewrite Hloop.
    f_equal. rewrite Hf. unfold std_set.insert. simpl.
    by rewrite (assoc_L (∪)), (comm_L (∪) _ {[field]}).
Qed.

Lemma parse_collections_fields str (set : gset string) :
  str ≠ EmptyString →
  parse_collections str set = list_to_set (fields str) ∪ set.
Proof.
  intros Hstr. unfold parse_collections.
  rewrite bool_decide_eq_false_2 by done.
  destruct (fields_loop_ends (S (String.length str)) str set) as (ss & -> & _);
    [lia|done].
Qed.

Lemma fields_app_comma p q :
  fields (p +:+ String ","%char q) = fields p ++ fields q.
Proof.
  induction p as [|c p IH]; simpl.
  - reflexivity.
  - case_decide; [by rewrite IH|]. rewrite IH.
    pose proof (fields_nonempty p). by destruct (fields p).
Qed.

Lemma fields_trailing_comma p : EmptyString ∈ fields (p +:+ ",").
Proof.
  rewrite fields_app_comma. simpl. apply elem_of_app. right. by left.
Qed.

Lemma fields_double_comma p q : EmptyString ∈ fields (p +:+ ",," +:+ q).
Proof.
  change (",," +:+ q) with (String ","%char (String ","%char q)).
  rewrite fields_app_comma. apply elem_of_app. right. simpl. by left.
Qed.

End Configuration.

(** ** Writer driver: row counts *)

Section Driver.
Context {Obj POD : Type}.
Variable podData : Obj → outcome POD.
Variable datamodel : list (type_index * string).
Implicit Types (w : EICRootWriter POD) (event : JEvent Obj POD).
Implicit Types (b : TBranch POD) (nm : string).

Lemma Process_writer w event :
  (Process podData datamodel w event).1 =
  let st := materialize podData datamodel w event in
  let w1 := ResetBranches (set_cerr w st.2) st.1 in
  set_evtMDtree (set_datatree w1 (TTree_Fill (m_datatree w1)))
    (S (m_evtMDtree w1)).
Proof.
  unfold Process, materialize, local_store.
  destruct (GetSingle_EICEventStore event) as [e|]; simpl;
    by destruct (foldl _ _ _).
Qed.

Lemma Process_tree w event :
  m_datatree (Process podData datamodel w event).1 =
  TTree_Fill (m_datatree
    (ResetBranches (set_cerr w (materialize podData datamodel w event).2)
       (materialize podData datamodel w event).1)).
Proof. by rewrite Process_writer. Qed.

(** Every event is flushed: one more entry in the events tree and in the
    event metadata tree. *)
Lemma Process_entries w event :
  entries (m_datatree (Process podData datamodel w event).1)
  = S (entries (m_datatree w)).
Proof. rewrite Process_tree. simpl. by rewrite ResetBranches_entries. Qed.

(** A branch that exists keeps its place and its rows and gets one more. *)
Lemma Process_old w event j b :
  branches (m_datatree w) !! j = Some b →
  ∃ b', branches (m_datatree (Process podData datamodel w event).1) !! j = Some b'
        ∧ br_name b' = br_name b
        ∧ baskets b' = baskets b ++ [address b'].
Proof.
  intros Hb. rewrite Process_tree. simpl.
  set (st := materialize podData datamodel w event).
  destruct (ResetBranches_old (set_cerr w st.2) st.1 j b Hb)
    as (b1 & Hb1 & Hn & _ & Hr).
  exists (TBranch_Fill b1). rewrite list_lookup_fmap, Hb1. simpl.
  split_and!; [done..|]. by rewrite Hr.
Qed.

(** A branch made for this event has one empty row for every entry flushed
    before, then the row of this event: the buffer of its name in the store. *)
Lemma Process_new w event j b :
  length (branches (m_datatree w)) ≤ j →
  branches (m_datatree (Process podData datamodel w event).1) !! j = Some b →
  baskets b = replicate (entries (m_datatree w)) [] ++ [address b]
  ∧ ∃ dv, dv ∈ m_datavectors (materialize podData datamodel w event).1
          ∧ name dv = br_name b ∧ vec dv = address b.
Proof.
  intros Hj. rewrite Process_tree. simpl.
  set (st := materialize podData datamodel w event).
  rewrite list_lookup_fmap.
  destruct (branches _ !! j) as [b1|] eqn:Hb1; [|done]. intros [= <-].
  destruct (ResetBranches_new (set_cerr w st.2) st.1 j b1 Hj Hb1)
    as (Hrows & dv & Hin & Hnm & Hvec).
  simpl. split; [by rewrite Hrows|]. by exists dv.
Qed.

(** The row count invariant: every branch has as many rows as the tree has
    entries. *)
Lemma Process_rows w event :
  (∀ b, b ∈ branches (m_datatree w) →
        length (baskets b) = entries (m_datatree w)) →
  ∀ b, b ∈ branches (m_datatree (Process podData datamodel w event).1) →
       length (baskets b)
       = entries (m_datatree (Process podData datamodel w event).1).
Proof.
  intros Hinv b' [j Hb']%list_elem_of_lookup. rewrite Process_entries.
  destruct (decide (j < length (branches (m_datatree w)))) as [Hlt|Hge].
  - apply lookup_lt_is_Some in Hlt as [b Hb].
    destruct (Process_old w event j b Hb) as (b2 & Hb2 & _ & Hr).
    assert (b2 = b') as -> by congruence.
    rewrite Hr, length_app. simpl.
    rewrite (Hinv b); [lia|]. apply list_elem_of_lookup. by exists j.
  - destruct (Process_new w event j b') as [Hr _]; [lia|done|].
    rewrite Hr, length_app, length_replicate. simpl. lia.
Qed.

Lemma ProcessAll_snoc w (events : list (JEvent Obj POD)) event :
  ProcessAll podData datamodel w (events ++ [event])
  = (Process podData datamodel (ProcessAll podData datamodel w events) event).1.
Proof. unfold ProcessAll. by rewrite foldl_snoc. Qed.

Lemma ProcessAll_entries w (events : list (JEvent Obj POD)) :
  entries (m_datatree (ProcessAll podData datamodel w events))
  = length events + entries (m_datatree w).
Proof.
  induction events as [|event events IH] using rev_ind; [done|].
  rewrite ProcessAll_snoc, Process_entries, IH, length_app. simpl. lia.
Qed.

Lemma ProcessAll_rows w (events : list (JEvent Obj POD)) :
  (∀ b, b ∈ branches (m_datatree w) →
        length (baskets b) = entries (m_datatree w)) →
  ∀ b, b ∈ branches (m_datatree (ProcessAll podData datamodel w events)) →
       length (baskets b)
       = entries (m_datatree (ProcessAll podData datamodel w events)).
Proof.
  intros Hinv. induction events as [|event events IH] using rev_ind; [done|].
  rewrite ProcessAll_snoc. by apply Process_rows.
Qed.

(** C1: in a job of N events started by [Init], the events tree has N
    entries and every branch has exactly N rows.  When the next event is
    processed, a branch that exists keeps its rows and gets one more, and a
    branch that is created then, after the N events already flushed, gets N
    empty rows followed by the row of that event (the buffer of its name in
    the event store); so its row count is again the entry count. *)
Theorem backfill_row_count (include_str exclude_str : string)
    (events : list (JEvent Obj POD)) event :
  let w := ProcessAll podData datamodel (Init include_str exclude_str) events in
  let w' := (Process podData datamodel w event).1 in
  entries (m_datatree w) = length events
  ∧ (∀ b, b ∈ branches (m_datatree w) → length (baskets b) = length events)
  ∧ entries (m_datatree w') = S (length events)
  ∧ (∀ j b, branches (m_datatree w) !! j = Some b →
      ∃ b', branches (m_datatree w') !! j = Some b'
            ∧ br_name b' = br_name b
            ∧ baskets b' = baskets b ++ [address b'])
  ∧ (∀ j b', length (branches (m_datatree w)) ≤ j →
      branches (m_datatree w') !! j = Some b' →
      baskets b' = replicate (length events) [] ++ [address b']
      ∧ length (baskets b') = S (length events)
      ∧ ∃ dv, dv ∈ m_datavectors (materialize podData datamodel w event).1
              ∧ name dv = br_name b' ∧ vec dv = address b').
Proof.
  intros w w'.
  assert (entries (m_datatree w) = length events) as Hn.
  { unfold w. rewrite ProcessAll_entries. simpl. lia. }
  split_and!.
  - done.
  - intros b Hb. rewrite <- Hn. apply ProcessAll_rows; [|done].
    simpl. by intros ? ?%elem_of_nil.
  - unfold w'. by rewrite Process_entries, Hn.
  - intros j b Hb. by apply Process_old.
  - intros j b' Hj Hb'.
    destruct (Process_new w event j b' Hj Hb') as (Hr & Hdv).
    rewrite Hn in Hr. split_and!; [done| |done].
    rewrite Hr, length_app, length_replicate. simpl. lia.
Qed.

(** *** Names the filters keep out of the output *)

Lemma Process_sets w event :
  m_OUTPUT_INCLUDE_COLLECTIONS (Process podData datamodel w event).1
  = m_OUTPUT_INCLUDE_COLLECTIONS w
  ∧ m_OUTPUT_EXCLUDE_COLLECTIONS (Process podData datamodel w event).1
    = m_OUTPUT_EXCLUDE_COLLECTIONS w.
Proof.
  rewrite Process_writer. simpl.
  set (st := materialize podData datamodel w event).
  by destruct (ResetBranches_sets (set_cerr w st.2) st.1) as [-> ->].
Qed.

Lemma Process_column_absent w event nm :
  ignored w nm = true → column w nm = (None, [], false) →
  column (Process podData datamodel w event).1 nm = (None, [], false).
Proof.
  intros Hig Hcol. rewrite Process_writer. simpl.
  set (st := materialize podData datamodel w event).
  pose proof (ResetBranches_column_ignored (set_cerr w st.2) st.1 nm Hig) as Hr.
  change (column (set_cerr w st.2) nm) with (column w nm) in Hr.
  rewrite Hcol in Hr. unfold column in *. simpl.
  injection Hr as -> Hbr ->.
  rewrite filter_fmap_keeps by done. by rewrite Hbr.
Qed.

Lemma ProcessAll_column_absent w (events : list (JEvent Obj POD)) nm :
  ignored w nm = true → column w nm = (None, [], false) →
  ignored (ProcessAll podData datamodel w events) nm = true
  ∧ column (ProcessAll podData datamodel w events) nm = (None, [], false).
Proof.
  intros Hig Hcol.
  induction events as [|event events [IHig IHcol]] using rev_ind; [done|].
  rewrite ProcessAll_snoc. split; [|by apply Process_column_absent].
  unfold ignored in *.
  by destruct (Process_sets (ProcessAll podData datamodel w events) event)
    as [-> ->].
Qed.

(** C6: for a name that is in the include set and in the exclude set, the
    materializer returns at once with the store untouched, the loop body
    of the synchronizer leaves the writer as it is, the whole loop keeps
    the branch map entry, the branches and the registry entry of the name
    as they were, and in a job in which the name had no column it never
    gets one. *)
Theorem excluded_wins_over_included w nm :
  nm ∈ m_OUTPUT_INCLUDE_COLLECTIONS w →
  nm ∈ m_OUTPUT_EXCLUDE_COLLECTIONS w →
  (∀ T cls fac store,
     DeriveCollectionName T cls fac = nm →
     PutPODIODataT podData T cls w fac store = (Value EmptyString, store))
  ∧ (∀ dv, name dv = nm → ResetBranches_body w dv = w)
  ∧ (∀ store, column (ResetBranches w store) nm = column w nm)
  ∧ (column w nm = (None, [], false) →
     ∀ events : list (JEvent Obj POD),
       column (ProcessAll podData datamodel w events) nm = (None, [], false)).
Proof.
  intros Hinc Hexc.
  assert (ignored w nm = true) as Hig by (apply ignored_true; by left).
  split_and!.
  - intros T cls fac store <-. apply PutPODIODataT_bail.
    apply bails_early_true. by left.
  - intros dv <-. by apply ResetBranches_body_ignored.
  - intros store. by apply ResetBranches_column_ignored.
  - intros Hcol events. by apply ProcessAll_column_absent.
Qed.

(** C10: when the list given for the include (or exclude) parameter is not
    empty and ends with a comma or has two commas in a row, [Init] puts the
    empty name into the set.  The include set then has a member, so the
    synchronizer ignores every name that is not a field of the list, and no
    column of such a name appears in the output of the job. *)
Theorem Init_inserts_empty_name (str other : string)
    (events : list (JEvent Obj POD)) :
  str ≠ EmptyString →
  (∃ p, str = p +:+ ",") ∨ (∃ p q, str = p +:+ ",," +:+ q) →
  EmptyString ∈ m_OUTPUT_INCLUDE_COLLECTIONS (Init (POD:=POD) str other)
  ∧ EmptyString ∈ m_OUTPUT_EXCLUDE_COLLECTIONS (Init (POD:=POD) other str)
  ∧ m_OUTPUT_INCLUDE_COLLECTIONS (Init (POD:=POD) str other) ≠ ∅
  ∧ ∀ nm, nm ∉ fields str →
      ignored (Init (POD:=POD) str other) nm = true
      ∧ column (ProcessAll podData datamodel (Init str other) events) nm
        = (None, [], false).
Proof.
  intros Hstr Hcomma.
  assert (EmptyString ∈ fields str) as Hin.
  { destruct Hcomma as [[p ->] | (p & q & ->)];
      [apply fields_trailing_comma | apply fields_double_comma]. }
  assert (∀ set : gset string, EmptyString ∈ parse_collections str set) as Hset.
  { intros set. rewrite parse_collections_fields by done.
    apply elem_of_union. left. by apply elem_of_list_to_set. }
  split_and!; simpl; [done|done| |].
  - intros Hempty. specialize (Hset ∅). rewrite Hempty in Hset.
    by apply not_elem_of_empty in Hset.
  - intros nm Hnm.
    assert (ignored (Init (POD:=POD) str other) nm = true) as Hig.
    { apply ignored_true. right. simpl. split.
      - intros Hempty. specialize (Hset ∅). rewrite Hempty in Hset.
        by apply not_elem_of_empty in Hset.
      - rewrite parse_collections_fields by done.
        rewrite elem_of_union, elem_of_list_to_set.
        intros [?|Hemp]; [done|]. by apply not_elem_of_empty in Hemp. }
    split; [done|]. by apply ProcessAll_column_absent.
Qed.

End Driver.

(** ** Column registry *)

Section Registry.
Implicit Types (tbl : CollectionIDTable.t) (nm : string).

Lemma collectionID_Some tbl nm i :
  CollectionIDTable.collectionID tbl nm = Some i ↔
  ∃ k, list_find (λ e, e.1 = nm) tbl = Some (k, (nm, i)).
Proof.
  unfold CollectionIDTable.collectionID. split.
  - destruct (list_find _ tbl) as [[k [m j]]|] eqn:Hf; [|done].
    intros [= <-]. apply list_find_Some in Hf as Hf'.
    destruct Hf' as (_ & Hm & _). simpl in Hm. subst m. by exists k.
  - by intros [k ->].
Qed.

(** An identity, once assigned, survives the registration of any name. *)
Lemma register_keeps tbl nm m i :
  CollectionIDTable.collectionID tbl m = Some i →
  CollectionIDTable.collectionID (register tbl nm) m = Some i.
Proof.
  intros [k Hk]%collectionID_Some. apply collectionID_Some. exists k.
  destruct (decide (nm ∈ CollectionIDTable.names tbl)).
  - by rewrite register_present.
  - rewrite register_absent by done. by apply list_find_app_l.
Qed.

Lemma register_new tbl nm :
  nm ∉ CollectionIDTable.names tbl →
  CollectionIDTable.collectionID (register tbl nm) nm = Some (S (length tbl)).
Proof.
  intros Hnew. rewrite register_absent by done.
  apply collectionID_Some. exists (length tbl).
  rewrite list_find_app_r.
  - simpl. by rewrite decide_True.
  - apply list_find_None, Forall_forall. intros [m j] Hin Hm. simpl in Hm.
    subst m. apply Hnew. unfold CollectionIDTable.names.
    apply list_elem_of_fmap. by exists (nm, j).
Qed.

Lemma register_idempotent tbl nm :
  register (register tbl nm) nm = register tbl nm.
Proof.
  apply register_present. rewrite register_names.
  case_decide; [by rewrite app_nil_r|].
  apply elem_of_app. right. by left.
Qed.

Lemma foldl_register_keeps tbl (l : list string) m i :
  CollectionIDTable.collectionID tbl m = Some i →
  CollectionIDTable.collectionID (foldl register tbl l) m = Some i.
Proof.
  revert tbl. induction l as [|nm l IH]; intros tbl Hm; [done|].
  simpl. apply IH. by apply register_keeps.
Qed.

Lemma foldl_register_names tbl (l : list string) :
  CollectionIDTable.names (foldl register tbl l)
  = CollectionIDTable.names tbl ++ first_seen (CollectionIDTable.names tbl) l.
Proof.
  revert tbl. induction l as [|nm l IH]; intros tbl; simpl.
  - by rewrite app_nil_r.
  - rewrite IH, register_names. case_decide.
    + by rewrite app_nil_r.
    + by rewrite <- app_assoc.
Qed.

Lemma register_numbered tbl nm : numbered tbl → numbered (register tbl nm).
Proof.
  unfold numbered. intros Hn.
  destruct (decide (nm ∈ CollectionIDTable.names tbl)).
  - by rewrite register_present.
  - rewrite register_absent by done.
    rewrite fmap_app, length_app, Hn. simpl.
    by rewrite Nat.add_1_r, seq_S.
Qed.

Lemma foldl_register_numbered tbl (l : list string) :
  numbered tbl → numbered (foldl register tbl l).
Proof.
  revert tbl. induction l as [|nm l IH]; intros tbl Hn; [done|].
  simpl. apply IH. by apply register_numbered.
Qed.

Lemma register_NoDup tbl nm :
  NoDup (CollectionIDTable.names tbl) →
  NoDup (CollectionIDTable.names (register tbl nm)).
Proof.
  intros Hnd. rewrite register_names. case_decide.
  - by rewrite app_nil_r.
  - apply NoDup_app. split_and!; [done| |apply NoDup_singleton].
    intros m Hm ->%list_elem_of_singleton. done.
Qed.

Lemma foldl_register_NoDup tbl (l : list string) :
  NoDup (CollectionIDTable.names tbl) →
  NoDup (CollectionIDTable.names (foldl register tbl l)).
Proof.
  revert tbl. induction l as [|nm l IH]; intros tbl Hnd; [done|].
  simpl. apply IH. by apply register_NoDup.
Qed.

Lemma collectionID_present tbl nm :
  nm ∈ CollectionIDTable.names tbl →
  is_Some (CollectionIDTable.collectionID tbl nm).
Proof.
  intros [[m i] [-> Hin]]%list_elem_of_fmap.
  destruct (list_find_elem_of (λ e, e.1 = m) tbl (m, i) Hin eq_refl)
    as [[k e] Hf].
  unfold CollectionIDTable.collectionID. simpl. rewrite Hf. by eexists.
Qed.

(** In a numbered table without repeated names, the name in place k
    (counting from 0) has identity k + 1. *)
Lemma collectionID_position tbl nm k :
  numbered tbl → NoDup (CollectionIDTable.names tbl) →
  CollectionIDTable.names tbl !! k = Some nm →
  CollectionIDTable.collectionID tbl nm = Some (S k).
Proof.
  unfold numbered, CollectionIDTable.names. intros Hnum Hnd Hk.
  apply list_lookup_fmap_Some in Hk as ([m i] & -> & He). simpl.
  assert (i = S k) as ->.
  { assert (tbl.*2 !! k = Some i) as Hi by (by rewrite list_lookup_fmap, He).
    rewrite Hnum in Hi. apply lookup_seq in Hi. lia. }
  apply collectionID_Some. exists k. apply list_find_Some.
  split_and!; [done..|].
  intros j [m' j'] Hj Hlt Hm. simpl in Hm. subst m'.
  assert (j = k); [|lia].
  eapply (NoDup_lookup _ _ _ m Hnd); apply list_lookup_fmap_Some.
  - by exists (m, j').
  - by exists (m, S k).
Qed.

(** C9: registering a name twice is registering it once; a name that is
    present leaves the table as it is, and the name has the same identity
    after the second registration as after the first.  An identity that a
    name has is the one it has after any further registrations.  In a job
    that registers the names [l] from the empty table, the table lists the
    names in the order in which each was first seen, and the name in place
    k has identity k + 1. *)
Theorem registration_idempotent tbl nm (l : list string) :
  register (register tbl nm) nm = register tbl nm
  ∧ (CollectionIDTable.present tbl nm = true → register tbl nm = tbl)
  ∧ is_Some (CollectionIDTable.collectionID (register tbl nm) nm)
  ∧ CollectionIDTable.collectionID (register (register tbl nm) nm) nm
    = CollectionIDTable.collectionID (register tbl nm) nm
  ∧ (∀ m i, CollectionIDTable.collectionID tbl m = Some i →
            CollectionIDTable.collectionID (foldl register tbl l) m = Some i)
  ∧ CollectionIDTable.names (foldl register [] l) = first_seen [] l
  ∧ (∀ k m, first_seen [] l !! k = Some m →
            CollectionIDTable.collectionID (foldl register [] l) m = Some (S k)).
Proof.
  split_and!.
  - apply register_idempotent.
  - unfold CollectionIDTable.present. intros Hin%bool_decide_eq_true.
    by apply register_present.
  - apply collectionID_present. rewrite register_names.
    case_decide; [by rewrite app_nil_r|]. apply elem_of_app. right. by left.
  - by rewrite register_idempotent.
  - intros m i. apply foldl_register_keeps.
  - by rewrite foldl_register_names.
  - intros k m Hk. apply collectionID_position.
    + by apply foldl_register_numbered.
    + apply foldl_register_NoDup. constructor.
    + by rewrite foldl_register_names.
Qed.

End Registry.

(** The table of a job that sees Hits, Clusters, Hits and Tracks. *)
Example registry_first_seen :
  foldl register [] ["Hits"; "Clusters"; "Hits"; "Tracks"]
  = [("Hits", 1); ("Clusters", 2); ("Tracks", 3)].
Proof. reflexivity. Qed.

(** ** The store under the turns of the factories *)

Section Actions.
Context {POD : Type}.
Implicit Types (l t : list (DataVector POD)) (dv : DataVector POD).
Implicit Types (nm : string) (a : action POD) (actions : list (action POD)).

Lemma touch_mono nm cls o l m :
  m ∈ name <$> l → m ∈ name <$> touch nm cls o l.
Proof.
  induction l as [|dv l IH]; simpl; [by intros ?%elem_of_nil|].
  intros [->|Hin]%elem_of_cons; case_decide.
  - destruct o; by left.
  - by left.
  - by right.
  - right. by apply IH.
Qed.

Lemma touch_present nm cls o l : nm ∈ name <$> touch nm cls o l.
Proof.
  induction l as [|dv l IH]; simpl; [by left|].
  case_decide as Hnm.
  - destruct o; simpl; rewrite <- Hnm; by left.
  - by right.
Qed.

Lemma touch_app_l nm cls o l t :
  nm ∈ name <$> l → touch nm cls o (l ++ t) = touch nm cls o l ++ t.
Proof.
  induction l as [|dv l IH]; simpl; [by intros ?%elem_of_nil|].
  intros [->|Hin]%elem_of_cons; case_decide; try done.
  by rewrite IH.
Qed.

Lemma touch_app_r nm cls o l t :
  nm ∉ name <$> l → touch nm cls o (l ++ t) = l ++ touch nm cls o t.
Proof.
  induction l as [|dv l IH]; simpl; [done|].
  intros [Hne Hnin]%not_elem_of_cons.
  rewrite decide_False by done. by rewrite IH.
Qed.

Lemma touch_None_present nm cls l :
  nm ∈ name <$> l → touch nm cls None l = l.
Proof.
  induction l as [|dv l IH]; simpl; [by intros ?%elem_of_nil|].
  intros [->|Hin]%elem_of_cons; case_decide; try done.
  by rewrite IH.
Qed.

(** Putting data in a buffer that exists makes an earlier turn for the same
    name irrelevant. *)
Lemma touch_touch nm cls cls' d o l :
  nm ∈ name <$> l →
  touch nm cls (Some d) (touch nm cls' o l) = touch nm cls (Some d) l.
Proof.
  induction l as [|dv l IH]; simpl; [by intros ?%elem_of_nil|].
  intros Hin. case_decide as Hnm.
  - destruct o; simpl; by rewrite decide_True.
  - simpl. rewrite decide_False by done. rewrite IH; [done|].
    apply elem_of_cons in Hin as [->|Hin]; done.
Qed.

(** Turns for different names commute when the first name has a buffer. *)
Lemma touch_comm nm cls o m cls' o' l :
  nm ≠ m → nm ∈ name <$> l →
  touch nm cls o (touch m cls' o' l) = touch m cls' o' (touch nm cls o l).
Proof.
  intros Hne. induction l as [|dv l IH]; simpl; [by intros ?%elem_of_nil|].
  intros Hin.
  destruct (decide (name dv = m)) as [Hm|Hm],
           (decide (name dv = nm)) as [Hn|Hn]; try congruence.
  - destruct o'; simpl; rewrite decide_False, decide_True by congruence; done.
  - destruct o; simpl; rewrite decide_True, decide_False by congruence; done.
  - simpl. rewrite !decide_False by done. rewrite IH; [done|].
    apply elem_of_cons in Hin as [->|Hin]; done.
Qed.

Lemma act_list_mono a l m : m ∈ name <$> l → m ∈ name <$> act_list a l.
Proof. destruct a; simpl; [done|]. apply touch_mono. Qed.

Lemma run_mono actions l m : m ∈ name <$> l → m ∈ name <$> run actions l.
Proof.
  revert l. induction actions as [|a actions IH]; intros l Hin; [done|].
  simpl. apply IH. by apply act_list_mono.
Qed.

(** After the turns, every name that had a turn has a buffer. *)
Lemma run_present actions l nm cls o :
  Touch nm cls o ∈ actions → nm ∈ name <$> run actions l.
Proof.
  revert l. induction actions as [|a actions IH]; intros l;
    [by intros ?%elem_of_nil|].
  intros [<-|Hin]%elem_of_cons; simpl.
  - apply run_mono, touch_present.
  - by apply IH.
Qed.

Lemma run_app actions l t :
  (∀ nm cls o, Touch nm cls o ∈ actions → nm ∈ name <$> l) →
  run actions (l ++ t) = run actions l ++ t.
Proof.
  revert l. induction actions as [|a actions IH]; intros l Hall; [done|].
  simpl. destruct a as [|nm cls o]; simpl.
  - apply IH. intros nm cls o Hin. eapply Hall. by right.
  - rewrite touch_app_l by (eapply Hall; by left).
    apply IH. intros nm' cls' o' Hin. apply touch_mono. eapply Hall. by right.
Qed.

Lemma run_absorb actions nm cls d l :
  nm ∈ name <$> l →
  touch nm cls (Some d) (run actions (touch nm cls (Some d) l))
  = touch nm cls (Some d) (run actions l).
Proof.
  revert l. induction actions as [|a actions IH]; intros l Hin; simpl.
  - by apply touch_touch.
  - destruct a as [|m cls' o']; simpl; [by apply IH|].
    destruct (decide (nm = m)) as [<-|Hne].
    + destruct o' as [d'|].
      * by rewrite touch_touch.
      * rewrite !touch_None_present by (done || by apply touch_mono).
        by apply IH.
    + rewrite <- touch_comm by done. apply IH. by apply touch_mono.
Qed.

(** Running the turns again on their result changes nothing. *)
Lemma run_idempotent actions l : run actions (run actions l) = run actions l.
Proof.
  revert l. induction actions as [|a actions IH] using rev_ind; intros l;
    [done|].
  unfold run in *. rewrite !foldl_snoc.
  set (S' := foldl (λ l a, act_list a l) l actions).
  assert (foldl (λ l a, act_list a l) S' actions = S') as Hfix by apply IH.
  destruct a as [|nm cls o]; simpl; [done|].
  destruct (decide (nm ∈ name <$> S')) as [Hin|Hnin].
  - destruct o as [d|].
    + pose proof (run_absorb actions nm cls d S' Hin) as Habs.
      unfold run in Habs. by rewrite Habs, Hfix.
    + rewrite (touch_None_present nm cls S') by done. rewrite Hfix.
      by apply touch_None_present.
  - assert (touch nm cls o S'
            = S' ++ [{| name := nm; className := cls; vec := default [] o |}])
      as Hnew.
    { rewrite <- (app_nil_r S') at 1. by rewrite touch_app_r. }
    rewrite Hnew.
    pose proof (run_app actions S'
      [{| name := nm; className := cls; vec := default [] o |}]) as Happ.
    unfold run in Happ. rewrite Happ, Hfix.
    + rewrite touch_app_r by done. simpl. rewrite decide_True by done.
      by destruct o.
    + intros nm' cls' o' Hin'. unfold S'.
      by apply (run_present actions l nm' cls' o').
Qed.

End Actions.

(** ** Writer driver: the event store and failing producers *)

Section Events.
Context {Obj POD : Type}.
Variable podData : Obj → outcome POD.
Variable datamodel : list (type_index * string).
Implicit Types (w : EICRootWriter POD) (event : JEvent Obj POD).
Implicit Types (fac : JFactory Obj) (store : EICEventStore POD).
Implicit Types (st : EICEventStore POD * list string) (nm : string).

Lemma store_eq store store' :
  m_datavectors store = m_datavectors store' → store = store'.
Proof. destruct store, store'. simpl. by intros ->. Qed.

Lemma find_or_create_cons (dv : DataVector POD) l nm cls :
  find_or_create {| m_datavectors := dv :: l |} nm cls =
  if decide (name dv = nm) then ({| m_datavectors := dv :: l |}, 0)
  else let r := find_or_create {| m_datavectors := l |} nm cls in
       ({| m_datavectors := dv :: m_datavectors r.1 |}, S r.2).
Proof.
  unfold find_or_create, find_datavector, push_back. simpl m_datavectors.
  rewrite list_find_fst_cons. case_decide; [done|].
  by destruct (fst <$> list_find _ l).
Qed.

(** Finding or creating the buffer, and then putting data in it, are the
    two kinds of turn. *)
Lemma find_or_create_touch (l : list (DataVector POD)) nm cls :
  m_datavectors (find_or_create {| m_datavectors := l |} nm cls).1
  = touch nm cls None l
  ∧ ∀ d, m_datavectors
           (swap_into (find_or_create {| m_datavectors := l |} nm cls).1
              (find_or_create {| m_datavectors := l |} nm cls).2 d)
         = touch nm cls (Some d) l.
Proof.
  induction l as [|dv l [IH1 IH2]]; [done|].
  rewrite find_or_create_cons. simpl. case_decide; [done|]. simpl.
  split; [by rewrite IH1|]. intros d. specialize (IH2 d).
  unfold swap_into in *. simpl in *. by rewrite <- IH2.
Qed.

Lemma PutPODIODataT_act T cls w fac store :
  (PutPODIODataT podData T cls w fac store).2
  = act (action_of_T podData T cls w fac) store.
Proof.
  unfold action_of_T.
  destruct (bails_early w (DeriveCollectionName T cls fac)) eqn:Hb.
  - rewrite PutPODIODataT_bail by done. by apply store_eq.
  - rewrite PutPODIODataT_run by done. simpl.
    destruct store as [l].
    destruct (find_or_create_touch l (DeriveCollectionName T cls fac) cls)
      as [H1 H2].
    destruct (find_or_create _ _ _) as [store1 i].
    destruct (prepareForWrite podData (GetAs fac T)) as [d|what];
      apply store_eq; simpl in *; [apply H2 | apply H1].
Qed.

Lemma PutPODIOData_act w fac store :
  (PutPODIOData podData datamodel w fac store).2
  = act (action_from podData datamodel w fac) store.
Proof.
  unfold PutPODIOData. induction datamodel as [|[T cls] types IH]; simpl.
  - by apply store_eq.
  - destruct (GetAs fac T); [done|]. apply PutPODIODataT_act.
Qed.

Lemma Process_factory_store w st fac :
  (Process_factory podData datamodel w st fac).1
  = act (action_of podData datamodel w fac) st.1.
Proof.
  unfold Process_factory, action_of. case_bool_decide.
  - rewrite <- PutPODIOData_act.
    by destruct (PutPODIOData _ _ _ _ _) as [[?|?] ?].
  - by apply store_eq.
Qed.

Lemma foldl_Process_factory_store w st (facs : list (JFactory Obj)) :
  m_datavectors (foldl (Process_factory podData datamodel w) st facs).1
  = run (action_of podData datamodel w <$> facs) (m_datavectors st.1).
Proof.
  revert st. induction facs as [|fac facs IH]; intros st; [done|].
  simpl. rewrite IH. by rewrite Process_factory_store.
Qed.

(** The turn of a factory reads the writer for its exclude set only. *)
Lemma action_of_writer w w' fac :
  GetExcludeCollections w' = GetExcludeCollections w →
  action_of podData datamodel w' fac = action_of podData datamodel w fac.
Proof.
  intros Hex. unfold action_of. case_bool_decide; [|done].
  induction datamodel as [|[T cls] types IH]; simpl; [done|].
  destruct (GetAs fac T); [done|].
  unfold action_of_T, bails_early. by rewrite Hex.
Qed.

(** The log only grows. *)
Lemma Process_factory_log w st fac :
  ∃ more, (Process_factory podData datamodel w st fac).2 = st.2 ++ more.
Proof.
  unfold Process_factory. case_bool_decide.
  - destruct (PutPODIOData _ _ _ _ _) as [[?|?] ?]; simpl.
    + exists []. by rewrite app_nil_r.
    + by eexists.
  - exists []. by rewrite app_nil_r.
Qed.

Lemma foldl_Process_factory_log w st (facs : list (JFactory Obj)) :
  ∃ more, (foldl (Process_factory podData datamodel w) st facs).2 = st.2 ++ more.
Proof.
  revert st. induction facs as [|fac facs IH]; intros st; simpl.
  - exists []. by rewrite app_nil_r.
  - destruct (IH (Process_factory podData datamodel w st fac)) as [more ->].
    destruct (Process_factory_log w st fac) as [more' ->].
    exists (more' ++ more). by rewrite app_assoc.
Qed.

(** The event as [Process] leaves it. *)
Lemma Process_event w event :
  (Process podData datamodel w event).2 =
  {| GetAllFactories := GetAllFactories event;
     GetSingle_EICEventStore :=
       match GetSingle_EICEventStore event with
       | Some _ => Some (materialize podData datamodel w event).1
       | None => None
       end |}.
Proof.
  unfold Process, materialize, local_store.
  destruct (GetSingle_EICEventStore event) as [e|]; simpl;
    destruct (foldl _ _ _) as [store log]; simpl; [|done].
  do 2 f_equal. by apply store_eq.
Qed.

(** [PutPODIOData] throws only out of the preparation of the objects under
    some record type of the data model, after the buffer of the derived name
    has been found or created. *)
Lemma PutPODIOData_throws w fac store what :
  (PutPODIOData podData datamodel w fac store).1 = Exception what →
  ∃ T cls,
    (T, cls) ∈ datamodel
    ∧ prepareForWrite podData (GetAs fac T) = Exception what
    ∧ (PutPODIOData podData datamodel w fac store).2
      = (find_or_create store (DeriveCollectionName T cls fac) cls).1.
Proof.
  unfold PutPODIOData. induction datamodel as [|[T cls] types IH]; simpl; [done|].
  destruct (GetAs fac T) as [|obj objs] eqn:Hobjs.
  { intros Hex. destruct (IH Hex) as (T' & cls' & Hin & Hprep & Hst).
    exists T', cls'. split_and!; [by right|done..]. }
  clear IH.
  destruct (bails_early w (DeriveCollectionName T cls fac)) eqn:Hb.
  { by rewrite PutPODIODataT_bail. }
  rewrite PutPODIODataT_run by done. simpl. intros Hex. exists T, cls.
  destruct (find_or_create _ _ _) as [store1 i].
  destruct (prepareForWrite podData (GetAs fac T)) as [data|what'];
    simpl in Hex; [done|].
  injection Hex as ->. split_and!; [by left|done..].
Qed.

Lemma find_or_create_store store nm cls :
  (is_Some (find_datavector store nm) ∧ (find_or_create store nm cls).1 = store)
  ∨ (find_datavector store nm = None
     ∧ m_datavectors (find_or_create store nm cls).1
       = m_datavectors store ++ [{| name := nm; className := cls; vec := [] |}]).
Proof.
  unfold find_or_create. destruct (find_datavector store nm); [by left|].
  by right.
Qed.

(** C7, as the code has it: when the materialization of a producer throws,
    the exception is caught and a line with [what()] and the producer's
    declared name goes to the error stream.  The exception comes out of the
    preparation of the producer's objects under a record type [T] of the data
    model, and the producer adds no record to the event store: with [nm] the
    collection name derived for the producer under [T], a store that holds a
    buffer named [nm] is left as it was, that buffer included, and a store
    that holds none is left as it was with one empty buffer named [nm]
    appended.  The loop goes on with the remaining producers from that
    store, and the event is flushed: one more entry in the events tree and
    in the event metadata tree. *)
Theorem conversion_failure_is_local w event
    (pre post : list (JFactory Obj)) fac what :
  GetAllFactories event = pre ++ fac :: post →
  GetNumObjects fac ≠ 0 →
  let st := foldl (Process_factory podData datamodel w)
              (local_store event, cerr w) pre in
  let line := what +:+ " : " +:+ GetObjectName fac in
  (PutPODIOData podData datamodel w fac st.1).1 = Exception what →
  ∃ store' T cls,
    Process_factory podData datamodel w st fac = (store', st.2 ++ [line])
    ∧ (T, cls) ∈ datamodel
    ∧ prepareForWrite podData (GetAs fac T) = Exception what
    ∧ ((is_Some (find_datavector st.1 (DeriveCollectionName T cls fac))
        ∧ store' = st.1)
       ∨ (find_datavector st.1 (DeriveCollectionName T cls fac) = None
          ∧ m_datavectors store'
            = m_datavectors st.1
              ++ [{| name := DeriveCollectionName T cls fac;
                     className := cls; vec := [] |}]))
    ∧ materialize podData datamodel w event
      = foldl (Process_factory podData datamodel w) (store', st.2 ++ [line]) post
    ∧ line ∈ cerr (Process podData datamodel w event).1
    ∧ entries (m_datatree (Process podData datamodel w event).1)
      = S (entries (m_datatree w))
    ∧ m_evtMDtree (Process podData datamodel w event).1 = S (m_evtMDtree w).
Proof.
  intros Hfacs Hnum st line Hthrow.
  destruct (PutPODIOData_throws w fac st.1 what Hthrow)
    as (T & cls & Hin & Hprep & Hstore).
  exists (PutPODIOData podData datamodel w fac st.1).2, T, cls.
  assert (Process_factory podData datamodel w st fac
          = ((PutPODIOData podData datamodel w fac st.1).2, st.2 ++ [line]))
    as Hturn.
  { unfold Process_factory. rewrite bool_decide_eq_true_2 by done.
    destruct (PutPODIOData _ _ _ _ _) as [[collection_name|what'] store'];
      simpl in *; [done|]. by injection Hthrow as ->. }
  assert (materialize podData datamodel w event
          = foldl (Process_factory podData datamodel w)
              ((PutPODIOData podData datamodel w fac st.1).2, st.2 ++ [line])
              post) as Hrest.
  { unfold materialize. rewrite Hfacs, foldl_app. cbn [foldl]. fold st.
    by rewrite Hturn. }
  split_and!.
  - done.
  - done.
  - done.
  - rewrite Hstore.
    destruct (find_or_create_store st.1 (DeriveCollectionName T cls fac) cls)
      as [[??]|[??]]; [by left|by right].
  - done.
  - rewrite Process_writer. simpl.
    destruct (ResetBranches_scalars
                (set_cerr w (materialize podData datamodel w event).2)
                (materialize podData datamodel w event).1) as [_ ->].
    simpl. rewrite Hrest.
    destruct (foldl_Process_factory_log w
                ((PutPODIOData podData datamodel w fac st.1).2, st.2 ++ [line])
                post) as [more ->].
    simpl. rewrite !elem_of_app. left. right. by left.
  - apply Process_entries.
  - rewrite Process_writer. simpl.
    by destruct (ResetBranches_scalars
                  (set_cerr w (materialize podData datamodel w event).2)
                  (materialize podData datamodel w event).1) as [-> _].
Qed.

(** C5: when a store is attached to the event, the loop over the factories
    starts from its content, and [Process] leaves the attached store with
    the materialized data.  Processing the event as it was left once more
    leaves the attached store exactly as the first pass did: nothing is
    repeated and nothing is lost in any buffer. *)
Theorem Process_gives_store_back w event es :
  GetSingle_EICEventStore event = Some es →
  let once := Process podData datamodel w event in
  let twice := Process podData datamodel once.1 once.2 in
  local_store event = es
  ∧ GetSingle_EICEventStore once.2
    = Some (materialize podData datamodel w event).1
  ∧ GetAllFactories once.2 = GetAllFactories event
  ∧ GetSingle_EICEventStore twice.2 = GetSingle_EICEventStore once.2.
Proof.
  intros Hes once twice.
  assert (local_store event = es) as Hlocal.
  { unfold local_store. rewrite Hes. by apply store_eq. }
  assert (once.2 =
          {| GetAllFactories := GetAllFactories event;
             GetSingle_EICEventStore :=
               Some (materialize podData datamodel w event).1 |}) as Honce.
  { unfold once. by rewrite Process_event, Hes. }
  split_and!; [done|by rewrite Honce..|].
  unfold twice. rewrite Process_event, Honce. simpl. f_equal.
  apply store_eq. unfold materialize at 1.
  rewrite foldl_Process_factory_store. simpl.
  assert (action_of podData datamodel once.1 <$> GetAllFactories event
          = action_of podData datamodel w <$> GetAllFactories event) as ->.
  { apply list_fmap_ext. intros _ fac _. apply action_of_writer.
    unfold GetExcludeCollections, once.
    by destruct (Process_sets podData datamodel w event) as [_ ->]. }
  unfold local_store. simpl. unfold materialize.
  rewrite foldl_Process_factory_store. simpl. apply run_idempotent.
Qed.

End Events.

(** ** The properties at the concrete producers *)

Lemma excluded_wins_over_included_witness :
  (∀ T cls fac store,
     DeriveCollectionName T cls fac = "Cluster" →
     PutPODIODataT Scenario.podData T cls
       (Scenario.writer_with {["Cluster"]} {["Cluster"]}) fac store
     = (Value EmptyString, store))
  ∧ (∀ dv : DataVector nat, name dv = "Cluster" →
       ResetBranches_body (Scenario.writer_with {["Cluster"]} {["Cluster"]}) dv
       = Scenario.writer_with {["Cluster"]} {["Cluster"]})
  ∧ (∀ store,
       column (ResetBranches (Scenario.writer_with {["Cluster"]} {["Cluster"]}) store)
         "Cluster"
       = column (Scenario.writer_with {["Cluster"]} {["Cluster"]}) "Cluster")
  ∧ (column (Scenario.writer_with {["Cluster"]} {["Cluster"]}) "Cluster"
     = (None, [], false) →
     ∀ events : list (JEvent nat nat),
       column (ProcessAll Scenario.podData Scenario.datamodel
                 (Scenario.writer_with {["Cluster"]} {["Cluster"]}) events)
         "Cluster"
       = (None, [], false)).
Proof.
  apply (excluded_wins_over_included Scenario.podData Scenario.datamodel
           (Scenario.writer_with {["Cluster"]} {["Cluster"]}) "Cluster").
  - simpl. apply elem_of_singleton. reflexivity.
  - simpl. apply elem_of_singleton. reflexivity.
Defined.

(** The excluded and included [Cluster] collection over two events. *)
Example excluded_column_never_written :
  branches (m_datatree
    (ProcessAll Scenario.podData Scenario.datamodel
       (Scenario.writer_with {["Cluster"]} {["Cluster"]})
       [Scenario.cluster_event; Scenario.cluster_event])) = [].
Proof. reflexivity. Qed.

Lemma Init_inserts_empty_name_witness :
  EmptyString ∈ m_OUTPUT_INCLUDE_COLLECTIONS (Init (POD:=nat) "Hit," "Noise")
  ∧ EmptyString ∈ m_OUTPUT_EXCLUDE_COLLECTIONS (Init (POD:=nat) "Noise" "Hit,")
  ∧ m_OUTPUT_INCLUDE_COLLECTIONS (Init (POD:=nat) "Hit," "Noise") ≠ ∅
  ∧ ∀ nm, nm ∉ fields "Hit," →
      ignored (Init (POD:=nat) "Hit," "Noise") nm = true
      ∧ column (ProcessAll Scenario.podData Scenario.datamodel
                  (Init "Hit," "Noise")
                  [Scenario.cluster_event; Scenario.cluster_event]) nm
        = (None, [], false).
Proof.
  apply (Init_inserts_empty_name Scenario.podData Scenario.datamodel
           "Hit," "Noise" [Scenario.cluster_event; Scenario.cluster_event]).
  - discriminate.
  - left. exists "Hit". reflexivity.
Defined.

(** The sets [Init] makes of some lists. *)
Example Init_sets :
  m_OUTPUT_INCLUDE_COLLECTIONS (Init (POD:=nat) "Hit,Cluster" EmptyString)
  = {["Hit"; "Cluster"]}
  ∧ m_OUTPUT_INCLUDE_COLLECTIONS (Init (POD:=nat) "Hit," EmptyString)
    = {["Hit"; EmptyString]}
  ∧ m_OUTPUT_INCLUDE_COLLECTIONS (Init (POD:=nat) "Hit,,Cluster" EmptyString)
    = {["Hit"; EmptyString; "Cluster"]}
  ∧ m_OUTPUT_INCLUDE_COLLECTIONS (Init (POD:=nat) EmptyString EmptyString) = ∅
  ∧ m_OUTPUT_EXCLUDE_COLLECTIONS (Init (POD:=nat) EmptyString ",")
    = {[EmptyString]}.
Proof.
  split_and!; simpl; rewrite ?parse_collections_fields by done; simpl;
    try done; set_solver.
Qed.

Lemma conversion_failure_is_local_witness :
  ∃ store' T cls,
    Process_factory Scenario.podData Scenario.datamodel
      (Scenario.writer_with ∅ ∅)
      (foldl (Process_factory Scenario.podData Scenario.datamodel
                    (Scenario.writer_with ∅ ∅))
             (local_store Scenario.mixed_event, cerr (Scenario.writer_with ∅ ∅))
             [Scenario.producer_A])
      Scenario.producer_bad
    = (store',
       (foldl (Process_factory Scenario.podData Scenario.datamodel
                     (Scenario.writer_with ∅ ∅))
              (local_store Scenario.mixed_event, cerr (Scenario.writer_with ∅ ∅))
              [Scenario.producer_A]).2
       ++ ["conversion failed" +:+ " : " +:+ GetObjectName Scenario.producer_bad])
    ∧ (T, cls) ∈ Scenario.datamodel
    ∧ prepareForWrite Scenario.podData (GetAs Scenario.producer_bad T)
      = Exception "conversion failed"
    ∧ ((is_Some
          (find_datavector
             (foldl (Process_factory Scenario.podData Scenario.datamodel
                           (Scenario.writer_with ∅ ∅))
                    (local_store Scenario.mixed_event, cerr (Scenario.writer_with ∅ ∅))
                    [Scenario.producer_A]).1
             (DeriveCollectionName T cls Scenario.producer_bad))
        ∧ store'
          = (foldl (Process_factory Scenario.podData Scenario.datamodel
                          (Scenario.writer_with ∅ ∅))
                   (local_store Scenario.mixed_event, cerr (Scenario.writer_with ∅ ∅))
                   [Scenario.producer_A]).1)
       ∨ (find_datavector
            (foldl (Process_factory Scenario.podData Scenario.datamodel
                          (Scenario.writer_with ∅ ∅))
                   (local_store Scenario.mixed_event, cerr (Scenario.writer_with ∅ ∅))
                   [Scenario.producer_A]).1
            (DeriveCollectionName T cls Scenario.producer_bad) = None
          ∧ m_datavectors store'
            = m_datavectors
                (foldl (Process_factory Scenario.podData Scenario.datamodel
                              (Scenario.writer_with ∅ ∅))
                       (local_store Scenario.mixed_event, cerr (Scenario.writer_with ∅ ∅))
                       [Scenario.producer_A]).1
              ++ [{| name := DeriveCollectionName T cls Scenario.producer_bad;
                     className := cls; vec := [] |}]))
    ∧ materialize Scenario.podData Scenario.datamodel
        (Scenario.writer_with ∅ ∅) Scenario.mixed_event
      = foldl (Process_factory Scenario.podData Scenario.datamodel
                 (Scenario.writer_with ∅ ∅))
          (store',
           (foldl (Process_factory Scenario.podData Scenario.datamodel
                         (Scenario.writer_with ∅ ∅))
                  (local_store Scenario.mixed_event, cerr (Scenario.writer_with ∅ ∅))
                  [Scenario.producer_A]).2
           ++ ["conversion failed" +:+ " : " +:+ GetObjectName Scenario.producer_bad])
          [Scenario.producer_C]
    ∧ "conversion failed" +:+ " : " +:+ GetObjectName Scenario.producer_bad
      ∈ cerr (Process Scenario.podData Scenario.datamodel
                (Scenario.writer_with ∅ ∅) Scenario.mixed_event).1
    ∧ entries (m_datatree
                 (Process Scenario.podData Scenario.datamodel
                    (Scenario.writer_with ∅ ∅) Scenario.mixed_event).1)
      = S (entries (m_datatree (Scenario.writer_with ∅ ∅)))
    ∧ m_evtMDtree (Process Scenario.podData Scenario.datamodel
                     (Scenario.writer_with ∅ ∅) Scenario.mixed_event).1
      = S (m_evtMDtree (Scenario.writer_with ∅ ∅)).
Proof.
  apply (conversion_failure_is_local Scenario.podData Scenario.datamodel
           (Scenario.writer_with ∅ ∅) Scenario.mixed_event
           [Scenario.producer_A] [Scenario.producer_C] Scenario.producer_bad
           "conversion failed").
  - reflexivity.
  - simpl. lia.
  - reflexivity.
Defined.

(** What the event with the failing producer leaves in the store, in the
    log and in the tree. *)
Example mixed_event_processed :
  let r := Process Scenario.podData Scenario.datamodel
             (Scenario.writer_with ∅ ∅) Scenario.mixed_event in
  GetSingle_EICEventStore r.2
  = Some {| m_datavectors :=
       [{| name := "Cluster"; className := "edm4hep::Cluster"; vec := [1; 2] |};
        {| name := "Broken"; className := "edm4hep::Cluster"; vec := [] |};
        {| name := "SpecialCluster"; className := "edm4hep::Cluster";
           vec := [4; 5; 6] |}] |}
  ∧ cerr r.1 = ["conversion failed : Broken"]
  ∧ (br_name <$> branches (m_datatree r.1)) = ["Cluster"; "Broken"; "SpecialCluster"]
  ∧ (baskets <$> branches (m_datatree r.1)) = [[[1; 2]]; [[]]; [[4; 5; 6]]]
  ∧ entries (m_datatree r.1) = 1.
Proof. done. Qed.

(** The failing producer where the store already holds a buffer of its
    name, and where the include list leaves its name out: the buffer found
    keeps its content, and the buffer made is not written as a column. *)
Example failed_producer_other_stores :
  Process_factory Scenario.podData Scenario.datamodel (Scenario.writer_with ∅ ∅)
    (Scenario.old_store, [])
    (Scenario.cluster_factory EmptyString "Cluster" "Cluster" [0])
  = (Scenario.old_store, ["conversion failed : Cluster"])
  ∧ (materialize Scenario.podData Scenario.datamodel
       (Scenario.writer_with {["Hit"]} ∅) Scenario.broken_event).1
    = {| m_datavectors :=
           [{| name := "Broken"; className := "edm4hep::Cluster"; vec := [] |}] |}
  ∧ branches (m_datatree
       (Process Scenario.podData Scenario.datamodel
          (Scenario.writer_with {["Hit"]} ∅) Scenario.broken_event).1)
    = [].
Proof. split_and!; reflexivity. Qed.

(** The failing producer does leave something: an empty buffer in the
    store, and through it a column in the output that an event without the
    producer does not have. *)
Lemma failed_producer_leaves_a_column :
  (PutPODIOData Scenario.podData Scenario.datamodel (Scenario.writer_with ∅ ∅)
     Scenario.producer_bad Scenario.empty_store).1
  = Exception "conversion failed"
  ∧ ¬ contributes_nothing Scenario.podData Scenario.datamodel
        (Scenario.writer_with ∅ ∅) (Scenario.empty_store, [])
        Scenario.producer_bad
  ∧ branches (m_datatree
       (Process Scenario.podData Scenario.datamodel (Scenario.writer_with ∅ ∅)
          Scenario.broken_event).1)
    = [{| br_name := "Broken"; br_class := "edm4hep::Cluster"; address := [];
          baskets := [[]] |}]
  ∧ branches (m_datatree
       (Process Scenario.podData Scenario.datamodel (Scenario.writer_with ∅ ∅)
          Scenario.idle_event).1)
    = [].
Proof.
  split_and!; [reflexivity| |reflexivity..].
  unfold contributes_nothing. vm_compute. discriminate.
Qed.

Lemma Process_gives_store_back_witness :
  local_store Scenario.mixed_event = Scenario.empty_store
  ∧ GetSingle_EICEventStore
      (Process Scenario.podData Scenario.datamodel (Scenario.writer_with ∅ ∅)
         Scenario.mixed_event).2
    = Some (materialize Scenario.podData Scenario.datamodel
              (Scenario.writer_with ∅ ∅) Scenario.mixed_event).1
  ∧ GetAllFactories
      (Process Scenario.podData Scenario.datamodel (Scenario.writer_with ∅ ∅)
         Scenario.mixed_event).2
    = GetAllFactories Scenario.mixed_event
  ∧ GetSingle_EICEventStore
      (Process Scenario.podData Scenario.datamodel
         (Process Scenario.podData Scenario.datamodel
            (Scenario.writer_with ∅ ∅) Scenario.mixed_event).1
         (Process Scenario.podData Scenario.datamodel
            (Scenario.writer_with ∅ ∅) Scenario.mixed_event).2).2
    = GetSingle_EICEventStore
        (Process Scenario.podData Scenario.datamodel
           (Scenario.writer_with ∅ ∅) Scenario.mixed_event).2.
Proof.
  apply (Process_gives_store_back Scenario.podData Scenario.datamodel
           (Scenario.writer_with ∅ ∅) Scenario.mixed_event Scenario.empty_store).
  reflexivity.
Defined.

(** The backfill scenario: five events without clusters, then one with. *)
Example backfill_after_five_events :
  branches (m_datatree
    (ProcessAll Scenario.podData Scenario.datamodel (Init EmptyString EmptyString)
       (replicate 5 Scenario.idle_event ++ [Scenario.cluster_event])))
  = [{| br_name := "Cluster"; br_class := "edm4hep::Cluster"; address := [1; 2];
        baskets := [[]; []; []; []; []; [1; 2]] |}].
Proof. reflexivity. Qed.

(** * Further properties of the code *)

(** ** Init: the lists of names *)

Section Lists.

Lemma fields_no_comma s : Forall (λ x, has_comma x = false) (fields s).
Proof.
  induction s as [|c s IH]; simpl; [by repeat constructor|].
  case_decide as Hc; [by constructor|].
  destruct (fields s) as [|x l]; simpl.
  - repeat constructor. simpl. by rewrite bool_decide_eq_false_2.
  - inversion IH as [|? ? Hx Hl]; subst. constructor; [|done].
    simpl. by rewrite bool_decide_eq_false_2.
Qed.

Lemma fields_comma_free s : has_comma s = false → fields s = [s].
Proof.
  induction s as [|c s IH]; simpl; [done|].
  intros [Hc Hs]%orb_false_iff. apply bool_decide_eq_false in Hc.
  rewrite decide_False by done. by rewrite IH.
Qed.

Lemma fields_join (l : list string) :
  l ≠ [] → Forall (λ x, has_comma x = false) l → fields (join l) = l.
Proof.
  induction l as [|x l IH]; [done|]. intros _ Hall.
  inversion Hall as [|? ? Hx Hl]; subst.
  destruct l as [|y l].
  - simpl. by apply fields_comma_free.
  - change (join (x :: y :: l)) with (x +:+ String ","%char (join (y :: l))).
    rewrite fields_app_comma, fields_comma_free by done.
    by rewrite IH.
Qed.

Lemma join_empty (l : list string) :
  join l = EmptyString → l = [] ∨ l = [EmptyString].
Proof.
  destruct l as [|x [|y l]]; simpl; [by left|intros ->; by right|].
  destruct x; discriminate.
Qed.

(** X1: the loop of [Init] over a non-empty list ends before its fuel does
    (the stream is no longer good), and what it leaves in the set is what
    was there plus exactly the comma-separated fields of the list: one more
    field than there are commas, empty fields included, and no field with a
    comma in it. *)
Theorem Init_loop_inserts_the_fields str (set : gset string) :
  str ≠ EmptyString →
  (∃ ss, fields_loop (S (String.length str)) (sstream.open str) set
         = (parse_collections str set, ss)
         ∧ sstream.good ss = false)
  ∧ (∀ nm, nm ∈ parse_collections str set ↔ nm ∈ fields str ∨ nm ∈ set)
  ∧ length (fields str)
    = S (length (filter (λ c, c = ","%char) (String.list_ascii_of_string str)))
  ∧ ∀ nm, nm ∈ fields str → has_comma nm = false.
Proof.
  intros Hstr. split_and!.
  - destruct (fields_loop_ends (S (String.length str)) str set) as (ss & Hl & Hg);
      [lia|].
    exists ss. split; [|done]. unfold parse_collections.
    rewrite bool_decide_eq_false_2 by done. by rewrite Hl.
  - intros nm. rewrite parse_collections_fields by done.
    by rewrite elem_of_union, elem_of_list_to_set.
  - clear Hstr. induction str as [|c s IH]; simpl; [done|].
    rewrite filter_cons. case_decide.
    + simpl. by rewrite IH.
    + pose proof (fields_nonempty s). destruct (fields s); [done|].
      simpl in *. lia.
  - intros nm Hin. pose proof (fields_no_comma str) as Hall.
    rewrite Forall_forall in Hall. by apply Hall.
Qed.

(** X2: a list of names, none with a comma in it, that is written with
    commas between the names and given to [Init] comes back as the set of
    exactly those names.  The one list that does not come back is the list
    of the empty name alone: it is written as the empty string, for which
    [Init] leaves the set empty. *)
Theorem Init_reads_back_joined_names (l : list string) :
  l ≠ [] → l ≠ [EmptyString] →
  Forall (λ nm, has_comma nm = false) l →
  m_OUTPUT_INCLUDE_COLLECTIONS (Init (POD:=unit) (join l) EmptyString)
  = list_to_set l
  ∧ m_OUTPUT_EXCLUDE_COLLECTIONS (Init (POD:=unit) EmptyString (join l))
    = list_to_set l
  ∧ m_OUTPUT_INCLUDE_COLLECTIONS
      (Init (POD:=unit) (join [EmptyString]) EmptyString) = ∅.
Proof.
  intros Hne Hne' Hall.
  assert (join l ≠ EmptyString) as Hj.
  { intros [?|?]%join_empty; done. }
  assert (parse_collections (join l) ∅ = list_to_set l) as Hp.
  { rewrite parse_collections_fields by done. rewrite fields_join by done.
    by rewrite (right_id_L ∅ (∪)). }
  by split_and!.
Qed.

End Lists.

Lemma Init_loop_inserts_the_fields_witness :
  (∃ ss, fields_loop (S (String.length "Hit,,Cluster,"))
           (sstream.open "Hit,,Cluster,") ∅
         = (parse_collections "Hit,,Cluster," ∅, ss)
         ∧ sstream.good ss = false)
  ∧ (∀ nm, nm ∈ parse_collections "Hit,,Cluster," ∅
           ↔ nm ∈ fields "Hit,,Cluster," ∨ nm ∈ (∅ : gset string))
  ∧ length (fields "Hit,,Cluster,")
    = S (length (filter (λ c, c = ","%char)
                   (String.list_ascii_of_string "Hit,,Cluster,")))
  ∧ ∀ nm, nm ∈ fields "Hit,,Cluster," → has_comma nm = false.
Proof.
  apply (Init_loop_inserts_the_fields "Hit,,Cluster," ∅). discriminate.
Defined.

Lemma Init_reads_back_joined_names_witness :
  m_OUTPUT_INCLUDE_COLLECTIONS
    (Init (POD:=unit) (join ["Hit"; "Cluster"]) EmptyString)
  = list_to_set ["Hit"; "Cluster"]
  ∧ m_OUTPUT_EXCLUDE_COLLECTIONS
      (Init (POD:=unit) EmptyString (join ["Hit"; "Cluster"]))
    = list_to_set ["Hit"; "Cluster"]
  ∧ m_OUTPUT_INCLUDE_COLLECTIONS
      (Init (POD:=unit) (join [EmptyString]) EmptyString) = ∅.
Proof.
  apply (Init_reads_back_joined_names ["Hit"; "Cluster"]).
  - discriminate.
  - discriminate.
  - repeat constructor.
Defined.

(** ** The event store under the materializer *)

Section Buffers.
Context {Obj POD : Type}.
Variable podData : Obj → outcome POD.
Variable datamodel : list (type_index * string).
Implicit Types (w : EICRootWriter POD) (event : JEvent Obj POD).
Implicit Types (fac : JFactory Obj) (store : EICEventStore POD).
Implicit Types (l : list (DataVector POD)) (nm : string).

(** A turn keeps every buffer in its place under its name and class, and
    appends one buffer when the name had none. *)
Lemma touch_signature nm cls o l :
  (λ dv, (name dv, className dv)) <$> touch nm cls o l
  = ((λ dv, (name dv, className dv)) <$> l)
    ++ (if decide (nm ∈ name <$> l) then [] else [(nm, cls)]).
Proof.
  induction l as [|dv l IH]; [done|].
  cbn [touch]. rewrite !fmap_cons.
  destruct (decide (name dv = nm)) as [Hnm|Hnm].
  - rewrite decide_True by (rewrite <- Hnm; by left).
    rewrite app_nil_r, fmap_cons. by destruct o.
  - rewrite fmap_cons, IH. simpl. f_equal. f_equal.
    destruct (decide (nm ∈ name <$> l)) as [Hin|Hin].
    + rewrite decide_True; [done|]. by right.
    + rewrite decide_False; [done|].
      intros [?|?]%elem_of_cons; congruence.
Qed.

Lemma touch_names nm cls o l :
  name <$> touch nm cls o l
  = (name <$> l) ++ (if decide (nm ∈ name <$> l) then [] else [nm]).
Proof.
  pose proof (touch_signature nm cls o l) as Hs.
  apply (f_equal (fmap fst)) in Hs.
  rewrite fmap_app, <- !list_fmap_compose in Hs.
  etrans; [exact Hs|]. f_equal. by case_decide.
Qed.

Lemma touch_NoDup nm cls o l :
  NoDup (name <$> l) → NoDup (name <$> touch nm cls o l).
Proof.
  intros Hnd. rewrite touch_names. case_decide as Hin.
  - by rewrite app_nil_r.
  - apply NoDup_app. split_and!; [done| |apply NoDup_singleton].
    intros m Hm ->%list_elem_of_singleton. done.
Qed.

Lemma act_list_signature (a : action POD) l :
  ((λ dv, (name dv, className dv)) <$> l)
  `prefix_of` ((λ dv, (name dv, className dv)) <$> act_list a l).
Proof.
  destruct a as [|nm cls o]; simpl; [done|].
  rewrite touch_signature. by eexists.
Qed.

Lemma act_list_NoDup (a : action POD) l :
  NoDup (name <$> l) → NoDup (name <$> act_list a l).
Proof. destruct a; simpl; [done|]. apply touch_NoDup. Qed.

Lemma run_signature (actions : list (action POD)) l :
  ((λ dv, (name dv, className dv)) <$> l)
  `prefix_of` ((λ dv, (name dv, className dv)) <$> run actions l).
Proof.
  revert l. induction actions as [|a actions IH]; intros l; [done|].
  simpl. etrans; [apply (act_list_signature a)|]. apply IH.
Qed.

Lemma run_NoDup (actions : list (action POD)) l :
  NoDup (name <$> l) → NoDup (name <$> run actions l).
Proof.
  revert l. induction actions as [|a actions IH]; intros l Hnd; [done|].
  simpl. apply IH. by apply act_list_NoDup.
Qed.

(** X3: whatever the outcome of [PutPODIODataT] (skipped, thrown or done),
    every buffer of the store is afterwards where it was, under the same
    name and with the same class name; at most one buffer has been appended,
    for the derived name and only when no buffer bore that name.  So a store
    with at most one buffer per name stays one. *)
Theorem PutPODIODataT_keeps_buffers T cls w fac store :
  let store' := (PutPODIODataT podData T cls w fac store).2 in
  ∃ new,
    (λ dv, (name dv, className dv)) <$> m_datavectors store'
    = ((λ dv, (name dv, className dv)) <$> m_datavectors store) ++ new
    ∧ (new = []
       ∨ new = [(DeriveCollectionName T cls fac, cls)]
         ∧ DeriveCollectionName T cls fac ∉ name <$> m_datavectors store)
    ∧ (NoDup (name <$> m_datavectors store) →
       NoDup (name <$> m_datavectors store')).
Proof.
  intros store'. unfold store'. rewrite PutPODIODataT_act.
  unfold action_of_T.
  destruct (bails_early w (DeriveCollectionName T cls fac)); simpl.
  - exists []. rewrite app_nil_r. split_and!; [done|by left|done].
  - eexists. split_and!.
    + apply touch_signature.
    + case_decide; [by left|by right].
    + apply touch_NoDup.
Qed.

Lemma DeriveCollectionName_nonempty T cls fac :
  GetObjectName fac ≠ EmptyString → DeriveCollectionName T cls fac ≠ EmptyString.
Proof.
  intros Hname. unfold DeriveCollectionName.
  repeat case_decide; done.
Qed.

(** X4: for a producer with a non-empty declared type name the derived
    name is never empty, so the empty name that [PutPODIODataT] returns
    means skipped and nothing else: it is returned exactly when one of the
    two early returns is taken. *)
Theorem PutPODIODataT_empty_name_means_skipped T cls w fac store :
  GetObjectName fac ≠ EmptyString →
  DeriveCollectionName T cls fac ≠ EmptyString
  ∧ ((PutPODIODataT podData T cls w fac store).1 = Value EmptyString
     ↔ bails_early w (DeriveCollectionName T cls fac) = true).
Proof.
  intros Hname.
  pose proof (DeriveCollectionName_nonempty T cls fac Hname) as Hnm.
  split; [done|]. split.
  - destruct (bails_early w (DeriveCollectionName T cls fac)) eqn:Hb; [done|].
    rewrite PutPODIODataT_run by done. simpl.
    destruct (find_or_create _ _ _) as [store1 i].
    destruct (prepareForWrite podData (GetAs fac T)); simpl; [|done].
    intros [= Heq]. by rewrite Heq in Hnm.
  - intros Hb. by rewrite PutPODIODataT_bail.
Qed.

(** X5: the loop of [Process] over the factories keeps every buffer of the
    store it starts from in its place under its name and class, and keeps
    the store at one buffer per name; with no store attached to the event,
    the store it builds has one buffer per name. *)
Theorem materialize_one_buffer_per_name w event :
  ((λ dv, (name dv, className dv)) <$> m_datavectors (local_store event))
  `prefix_of`
  ((λ dv, (name dv, className dv))
     <$> m_datavectors (materialize podData datamodel w event).1)
  ∧ (NoDup (name <$> m_datavectors (local_store event)) →
     NoDup (name <$> m_datavectors (materialize podData datamodel w event).1))
  ∧ (GetSingle_EICEventStore event = None →
     NoDup (name <$> m_datavectors (materialize podData datamodel w event).1)).
Proof.
  unfold materialize. rewrite foldl_Process_factory_store. simpl.
  split_and!.
  - apply run_signature.
  - apply run_NoDup.
  - intros Hnone. apply run_NoDup. unfold local_store. rewrite Hnone.
    simpl. constructor.
Qed.

(** With a member in the exclude set every turn is a skip. *)
Lemma PutPODIOData_excluding w fac store :
  GetExcludeCollections w ≠ ∅ →
  PutPODIOData podData datamodel w fac store = (Value EmptyString, store).
Proof.
  intros Hex. unfold PutPODIOData.
  induction datamodel as [|[T cls] types IH]; simpl; [done|].
  destruct (GetAs fac T); [done|].
  apply PutPODIODataT_bail. by apply bails_early_nonempty.
Qed.

(** X6: as soon as the exclude set has a member, whatever it is, the loop
    of [Process] over the factories puts nothing in the event store and
    writes nothing to the error stream: every call of [PutPODIODataT] takes
    an early return, because its include test reads the exclude set. *)
Theorem exclude_entry_silences_the_factories w event :
  GetExcludeCollections w ≠ ∅ →
  materialize podData datamodel w event = (local_store event, cerr w).
Proof.
  intros Hex. unfold materialize.
  generalize (local_store event, cerr w).
  induction (GetAllFactories event) as [|fac facs IH]; intros st; [done|].
  simpl.
  assert (Process_factory podData datamodel w st fac = st) as ->; [|apply IH].
  unfold Process_factory. case_bool_decide; [|done].
  rewrite PutPODIOData_excluding by done. by destruct st.
Qed.

Lemma prepareForWrite_total (v : list Obj) :
  (∀ obj, obj ∈ v → ∃ d, podData obj = Value d) →
  ∃ data, prepareForWrite podData v = Value data.
Proof.
  induction v as [|obj v IH]; intros Hall; simpl; [by eexists|].
  destruct (Hall obj) as [d ->]; [by left|].
  destruct IH as [data ->]; [|by eexists].
  intros o Ho. apply Hall. by right.
Qed.

Lemma PutPODIOData_quiet w fac store :
  (∀ T obj, obj ∈ GetAs fac T → ∃ d, podData obj = Value d) →
  ∃ nm, (PutPODIOData podData datamodel w fac store).1 = Value nm.
Proof.
  intros Hall. unfold PutPODIOData.
  induction datamodel as [|[T cls] types IH]; simpl; [by eexists|].
  destruct (GetAs fac T) eqn:Has; [done|]. clear IH.
  destruct (bails_early w (DeriveCollectionName T cls fac)) eqn:Hb.
  { rewrite PutPODIODataT_bail by done. by eexists. }
  rewrite PutPODIODataT_run by done. simpl.
  destruct (find_or_create _ _ _) as [store1 i].
  destruct (prepareForWrite_total (GetAs fac T)) as [data ->]; [|by eexists].
  intros obj. apply Hall.
Qed.

(** X7: when every object of every factory of the event can be prepared,
    [Process] writes nothing to the error stream. *)
Theorem no_failure_no_error_line w event :
  (∀ fac T obj, fac ∈ GetAllFactories event → obj ∈ GetAs fac T →
                ∃ d, podData obj = Value d) →
  cerr (Process podData datamodel w event).1 = cerr w.
Proof.
  intros Hall. rewrite Process_writer. simpl.
  destruct (ResetBranches_scalars
              (set_cerr w (materialize podData datamodel w event).2)
              (materialize podData datamodel w event).1) as [_ ->].
  simpl. unfold materialize.
  change (cerr w) with ((local_store event, cerr w).2) at 2.
  generalize (local_store event, cerr w).
  induction (GetAllFactories event) as [|fac facs IH]; intros st; [done|].
  simpl. rewrite IH.
  - unfold Process_factory. case_bool_decide; [|done].
    destruct (PutPODIOData_quiet w fac st.1) as [nm Hnm].
    { intros T obj. apply Hall. by left. }
    by destruct (PutPODIOData _ _ _ _ _) as [[?|?] ?].
  - intros fac' T obj Hin. apply Hall. by right.
Qed.

End Buffers.

(** ** The registry, the branch map and the tree over a job *)

Section Aligned.
Context {Obj POD : Type}.
Variable podData : Obj → outcome POD.
Variable datamodel : list (type_index * string).
Implicit Types (w : EICRootWriter POD) (event : JEvent Obj POD).
Implicit Types (t : TTree POD) (b : TBranch POD) (dv : DataVector POD).
Implicit Types (nm : string).

Lemma fmap_alter_same {A B : Type} (g : A → B) (f : A → A) i (l : list A) :
  (∀ x, g (f x) = g x) → g <$> alter f i l = g <$> l.
Proof.
  intros Hg. revert i. induction l as [|x l IH]; intros [|i]; try done.
  - change (alter f 0 (x :: l)) with (f x :: l). by rewrite !fmap_cons, Hg.
  - change (alter f (S i) (x :: l)) with (x :: alter f i l).
    by rewrite !fmap_cons, IH.
Qed.

(** Rebinding changes no name and no class. *)
Lemma TTree_SetBranchAddress_signature {C : Type}
    (g : string → string → C) t nm a :
  (λ b, g (br_name b) (br_class b)) <$> branches (TTree_SetBranchAddress t nm a)
  = (λ b, g (br_name b) (br_class b)) <$> branches t.
Proof.
  unfold TTree_SetBranchAddress. destruct (list_find _ _) as [[i bi]|]; [|done].
  simpl. by apply fmap_alter_same.
Qed.

Lemma TTree_Fill_signature {C : Type} (g : string → string → C) t :
  (λ b, g (br_name b) (br_class b)) <$> branches (TTree_Fill t)
  = (λ b, g (br_name b) (br_class b)) <$> branches t.
Proof. simpl. rewrite <- list_fmap_compose. by apply list_fmap_ext. Qed.

Lemma signature_names (l : list (TBranch POD)) :
  ((λ b, (br_name b, br_class b)) <$> l).*1 = br_name <$> l.
Proof. rewrite <- list_fmap_compose. by apply list_fmap_ext. Qed.

Lemma ignored_sets w w' nm :
  m_OUTPUT_INCLUDE_COLLECTIONS w' = m_OUTPUT_INCLUDE_COLLECTIONS w →
  m_OUTPUT_EXCLUDE_COLLECTIONS w' = m_OUTPUT_EXCLUDE_COLLECTIONS w →
  ignored w' nm = ignored w nm.
Proof. unfold ignored. by intros -> ->. Qed.

(** The writer stays aligned when only names, classes, sets, registry and
    map are looked at and they are the same. *)
Lemma aligned_same w w' :
  m_OUTPUT_INCLUDE_COLLECTIONS w' = m_OUTPUT_INCLUDE_COLLECTIONS w →
  m_OUTPUT_EXCLUDE_COLLECTIONS w' = m_OUTPUT_EXCLUDE_COLLECTIONS w →
  m_collectionIDtable w' = m_collectionIDtable w →
  m_collection_branches w' = m_collection_branches w →
  (λ b, (br_name b, br_class b)) <$> branches (m_datatree w')
  = (λ b, (br_name b, br_class b)) <$> branches (m_datatree w) →
  aligned w → aligned w'.
Proof.
  intros Hi He Ht Hm Hs (Hn & Hnum & Hnd & Hmap & Hig).
  assert (br_name <$> branches (m_datatree w')
          = br_name <$> branches (m_datatree w)) as Hnames.
  { by rewrite <- !signature_names, Hs. }
  unfold aligned. rewrite Ht, Hm, Hs, Hnames. split_and!; try done.
  intros b' Hb'.
  assert (br_name b' ∈ br_name <$> branches (m_datatree w)) as Hin.
  { rewrite <- Hnames. by apply list_elem_of_fmap_2. }
  apply list_elem_of_fmap in Hin as (b & Hbb & Hb).
  rewrite (ignored_sets w w') by done. rewrite Hbb. by apply Hig.
Qed.

Lemma aligned_body w dv : aligned w → aligned (ResetBranches_body w dv).
Proof.
  intros Hal. destruct (ignored w (name dv)) eqn:Hign.
  { by rewrite ResetBranches_body_ignored. }
  rewrite ResetBranches_body_run by done.
  destruct Hal as (Hn & Hnum & Hnd & Hmap & Hig).
  unfold with_branch, std_map.count.
  destruct (decide (is_Some (m_collection_branches w !! name dv))) as [Hsome|Hnone].
  - rewrite bool_decide_eq_false_2 by done.
    assert (name dv ∈ CollectionIDTable.names (m_collectionIDtable w)) as Hin.
    { rewrite Hn, <- signature_names. destruct Hsome as [cls Hcls].
      rewrite Hmap in Hcls. apply elem_of_list_to_map_2 in Hcls.
      apply list_elem_of_fmap. by exists (name dv, cls). }
    rewrite register_present by done.
    apply (aligned_same w); [done..| |by split_and!].
    simpl. apply (TTree_SetBranchAddress_signature pair).
  - rewrite bool_decide_eq_true_2 by done. rewrite CreateBranch_eq. simpl.
    assert (m_collection_branches w !! name dv = None) as Hlook.
    { by destruct (m_collection_branches w !! name dv); [destruct Hnone|]. }
    assert (name dv ∉ br_name <$> branches (m_datatree w)) as Hnew.
    { rewrite <- signature_names. apply not_elem_of_list_to_map.
      by rewrite <- Hmap. }
    unfold aligned. simpl.
    rewrite (TTree_SetBranchAddress_signature pair).
    rewrite (TTree_SetBranchAddress_signature (λ n _, n)). simpl.
    rewrite !fmap_app. simpl. split_and!.
    + rewrite register_names, decide_False by (by rewrite Hn). by rewrite Hn.
    + by apply register_numbered.
    + apply NoDup_app. split_and!; [done| |apply NoDup_singleton].
      intros m Hm ->%list_elem_of_singleton. done.
    + rewrite list_to_map_snoc by (by rewrite signature_names).
      by rewrite Hmap.
    + intros b' Hb'.
      assert (br_name b' ∈ (br_name <$> branches (m_datatree w)) ++ [name dv])
        as Hin.
      { replace ((br_name <$> branches (m_datatree w)) ++ [name dv])
          with (br_name <$> branches
                  (TTree_SetBranchAddress
                     {| branches := branches (m_datatree w) ++
                          [{| br_name := name dv; br_class := className dv;
                              address := vec dv;
                              baskets := replicate (entries (m_datatree w)) [] |}];
                        entries := entries (m_datatree w) |}
                     (name dv) (vec dv))).
        - by apply list_elem_of_fmap_2.
        - rewrite (TTree_SetBranchAddress_signature (λ n _, n)). simpl.
          by rewrite fmap_app. }
      apply elem_of_app in Hin as [Hin|Hin].
      * apply list_elem_of_fmap in Hin as (b & Hbb & Hb). rewrite Hbb.
        by apply Hig.
      * apply list_elem_of_singleton in Hin. by rewrite Hin.
Qed.

Lemma aligned_ResetBranches w (store : EICEventStore POD) :
  aligned w → aligned (ResetBranches w store).
Proof.
  intros Hal. destruct store as [l].
  induction l as [|dv l IH] using rev_ind; [done|].
  rewrite ResetBranches_snoc. by apply aligned_body.
Qed.

Lemma aligned_Init (include_str exclude_str : string) :
  aligned (Init (POD:=POD) include_str exclude_str).
Proof.
  unfold aligned. simpl. split_and!; try done; [constructor|].
  by intros b ?%elem_of_nil.
Qed.

Lemma aligned_Process w event :
  aligned w → aligned (Process podData datamodel w event).1.
Proof.
  intros Hal. rewrite Process_writer. simpl.
  set (st := materialize podData datamodel w event).
  assert (aligned (ResetBranches (set_cerr w st.2) st.1)) as Hal1.
  { apply aligned_ResetBranches. by apply (aligned_same w). }
  eapply (aligned_same _); [..|exact Hal1]; try done.
  simpl. rewrite <- list_fmap_compose. by apply list_fmap_ext.
Qed.

Lemma aligned_ProcessAll w (events : list (JEvent Obj POD)) :
  aligned w → aligned (ProcessAll podData datamodel w events).
Proof.
  intros Hal. induction events as [|event events IH] using rev_ind; [done|].
  rewrite ProcessAll_snoc. by apply aligned_Process.
Qed.

Lemma collectionID_absent (tbl : CollectionIDTable.t) nm :
  nm ∉ CollectionIDTable.names tbl →
  CollectionIDTable.collectionID tbl nm = None.
Proof.
  intros Hnin. unfold CollectionIDTable.collectionID.
  assert (list_find (λ e, e.1 = nm) tbl = None) as ->; [|done].
  apply list_find_None, Forall_forall. intros [m i] Hin Hm. simpl in Hm.
  subst m. apply Hnin. apply list_elem_of_fmap. by exists (nm, i).
Qed.

(** X8: at any point of a job started by [Init], the registry, the branch
    map and the events tree hold the same columns: the names of the
    registry are the names of the branches in the order of their creation,
    no name has two branches, the branch in place j (from 0) has its class
    under its name in the branch map and identity j + 1 in the registry, and
    a name without a branch is in neither.  So the test of [Finish] for a
    registered name without a branch never fires. *)
Theorem job_registry_map_tree_agree (include_str exclude_str : string)
    (events : list (JEvent Obj POD)) :
  let w := ProcessAll podData datamodel (Init include_str exclude_str) events in
  CollectionIDTable.names (m_collectionIDtable w)
  = br_name <$> branches (m_datatree w)
  ∧ NoDup (br_name <$> branches (m_datatree w))
  ∧ (∀ j b, branches (m_datatree w) !! j = Some b →
       m_collection_branches w !! br_name b = Some (br_class b)
       ∧ CollectionIDTable.collectionID (m_collectionIDtable w) (br_name b)
         = Some (S j))
  ∧ (∀ nm, nm ∉ br_name <$> branches (m_datatree w) →
       m_collection_branches w !! nm = None
       ∧ CollectionIDTable.collectionID (m_collectionIDtable w) nm = None)
  ∧ Forall (λ nm, std_map.count (m_collection_branches w) nm ≠ 0)
      (CollectionIDTable.names (m_collectionIDtable w)).
Proof.
  intros w.
  destruct (aligned_ProcessAll (Init include_str exclude_str) events
              (aligned_Init include_str exclude_str))
    as (Hn & Hnum & Hnd & Hmap & _).
  fold w in Hn, Hnum, Hnd, Hmap.
  assert (∀ j b, branches (m_datatree w) !! j = Some b →
            m_collection_branches w !! br_name b = Some (br_class b)) as Hcls.
  { intros j b Hb. rewrite Hmap. apply elem_of_list_to_map_1.
    - by rewrite signature_names.
    - apply list_elem_of_fmap. exists b. split; [done|].
      apply list_elem_of_lookup. by exists j. }
  split_and!; [done..| | |].
  - intros j b Hb. split; [by eapply Hcls|].
    apply collectionID_position; [done|by rewrite Hn|].
    by rewrite Hn, list_lookup_fmap, Hb.
  - intros nm Hnm. split.
    + rewrite Hmap. apply not_elem_of_list_to_map. by rewrite signature_names.
    + apply collectionID_absent. by rewrite Hn.
  - rewrite Hn. apply Forall_forall. intros nm Hin.
    apply list_elem_of_fmap in Hin as (b & -> & [j Hb]%list_elem_of_lookup).
    unfold std_map.count. rewrite (Hcls j b Hb).
    rewrite decide_True; [done|by eexists].
Qed.

Lemma ProcessAll_sets w (events : list (JEvent Obj POD)) :
  m_OUTPUT_INCLUDE_COLLECTIONS (ProcessAll podData datamodel w events)
  = m_OUTPUT_INCLUDE_COLLECTIONS w
  ∧ m_OUTPUT_EXCLUDE_COLLECTIONS (ProcessAll podData datamodel w events)
    = m_OUTPUT_EXCLUDE_COLLECTIONS w.
Proof.
  induction events as [|event events [IH1 IH2]] using rev_ind; [done|].
  rewrite ProcessAll_snoc.
  destruct (Process_sets podData datamodel
              (ProcessAll podData datamodel w events) event) as [-> ->].
  done.
Qed.

(** X9: at any point of a job started by [Init], no branch of the events
    tree bears a name that the filters keep out: none is in the exclude
    set, and when the include set has members every one is in it. *)
Theorem job_has_no_filtered_column (include_str exclude_str : string)
    (events : list (JEvent Obj POD)) :
  let w0 := Init (POD:=POD) include_str exclude_str in
  Forall (λ b, (br_name b ∉ m_OUTPUT_EXCLUDE_COLLECTIONS w0)
               ∧ (m_OUTPUT_INCLUDE_COLLECTIONS w0 ≠ ∅ →
                  br_name b ∈ m_OUTPUT_INCLUDE_COLLECTIONS w0))
    (branches (m_datatree (ProcessAll podData datamodel w0 events))).
Proof.
  intros w0.
  destruct (aligned_ProcessAll w0 events (aligned_Init include_str exclude_str))
    as (_ & _ & _ & _ & Hig).
  apply Forall_forall. intros b Hb. specialize (Hig b Hb).
  destruct (ProcessAll_sets w0 events) as [Hi He].
  rewrite (ignored_sets w0) in Hig by done.
  assert (¬ filter_rule (m_OUTPUT_INCLUDE_COLLECTIONS w0)
            (m_OUTPUT_EXCLUDE_COLLECTIONS w0) (br_name b)) as Hrule.
  { rewrite <- ignored_true. by rewrite Hig. }
  unfold filter_rule in Hrule. split.
  - intros Hin. apply Hrule. by left.
  - intros Hne.
    destruct (decide (br_name b ∈ m_OUTPUT_INCLUDE_COLLECTIONS w0)); [done|].
    destruct Hrule. by right.
Qed.

Lemma Process_evtMDtree w event :
  m_evtMDtree (Process podData datamodel w event).1 = S (m_evtMDtree w).
Proof.
  rewrite Process_writer. simpl.
  by destruct (ResetBranches_scalars
                 (set_cerr w (materialize podData datamodel w event).2)
                 (materialize podData datamodel w event).1) as [-> _].
Qed.

(** X10: the event metadata tree is filled once per event, like the events
    tree: after N events of a job started by [Init] both have N entries. *)
Theorem metadata_tree_counts_events (include_str exclude_str : string)
    (events : list (JEvent Obj POD)) :
  let w := ProcessAll podData datamodel (Init include_str exclude_str) events in
  m_evtMDtree w = length events ∧ entries (m_datatree w) = length events.
Proof.
  intros w. unfold w. split; [|rewrite ProcessAll_entries; simpl; lia].
  induction events as [|event events IH] using rev_ind; [done|].
  rewrite ProcessAll_snoc, Process_evtMDtree, IH, length_app. simpl. lia.
Qed.

(** X11: rows are only ever appended.  A branch of the events tree is, after
    any number of further events, in the same place under the same name, its
    rows so far are the first rows it has then, and it has one more row for
    every event. *)
Theorem flushed_rows_are_never_rewritten w (events : list (JEvent Obj POD)) j b :
  branches (m_datatree w) !! j = Some b →
  ∃ b', branches (m_datatree (ProcessAll podData datamodel w events)) !! j
        = Some b'
        ∧ br_name b' = br_name b
        ∧ baskets b `prefix_of` baskets b'
        ∧ length (baskets b') = length (baskets b) + length events.
Proof.
  intros Hb. induction events as [|event events IH] using rev_ind.
  - exists b. simpl. split_and!; [done..|lia].
  - destruct IH as (b1 & Hb1 & Hn1 & Hp1 & Hl1).
    rewrite ProcessAll_snoc.
    destruct (Process_old podData datamodel _ event j b1 Hb1)
      as (b2 & Hb2 & Hn2 & Hr2).
    exists b2. split_and!; [done|congruence| |].
    + rewrite Hr2. by apply prefix_app_r.
    + rewrite Hr2, !length_app, Hl1. simpl. lia.
Qed.

(** *** The row of an event is the buffer *)

Lemma TTree_SetBranchAddress_binds t nm a b :
  b ∈ branches t → br_name b = nm →
  ∃ j b', branches (TTree_SetBranchAddress t nm a) !! j = Some b'
          ∧ br_name b' = nm ∧ address b' = a.
Proof.
  intros Hin Hnm. unfold TTree_SetBranchAddress.
  destruct (list_find_elem_of (λ b, br_name b = nm) (branches t) b Hin Hnm)
    as [[i bi] Hfind].
  rewrite Hfind. apply list_find_Some in Hfind as (Hi & Hbi & _).
  exists i, (TBranch_SetAddress a bi). simpl.
  rewrite list_lookup_alter. rewrite decide_True by done. by rewrite Hi.
Qed.

Lemma with_branch_has w dv :
  aligned w → ∃ b, b ∈ branches (m_datatree (with_branch w dv))
                   ∧ br_name b = name dv.
Proof.
  intros (_ & _ & _ & Hmap & _). unfold with_branch, std_map.count.
  destruct (decide (is_Some (m_collection_branches w !! name dv)))
    as [[cls Hcls]|Hnone].
  - rewrite bool_decide_eq_false_2 by done.
    rewrite Hmap in Hcls. apply elem_of_list_to_map_2 in Hcls.
    apply list_elem_of_fmap in Hcls as (b & Heq & Hb).
    exists b. split; [done|]. by injection Heq as -> _.
  - rewrite bool_decide_eq_true_2 by done. rewrite CreateBranch_eq. simpl.
    eexists. split; [apply elem_of_app; right; by left|done].
Qed.

Lemma ResetBranches_binds w (l : list (DataVector POD)) dv :
  aligned w → NoDup (name <$> l) → dv ∈ l → ignored w (name dv) = false →
  ∃ j b, branches (m_datatree (ResetBranches w {| m_datavectors := l |})) !! j
         = Some b
         ∧ br_name b = name dv ∧ address b = vec dv.
Proof.
  intros Hal. induction l as [|dv' l IH] using rev_ind;
    [by intros _ ?%elem_of_nil|].
  rewrite fmap_app. intros (Hnd & Hdisj & _)%NoDup_app Hin Hign.
  rewrite ResetBranches_snoc.
  set (w1 := ResetBranches w {| m_datavectors := l |}) in *.
  apply elem_of_app in Hin as [Hin|Hin%list_elem_of_singleton].
  - destruct (IH Hnd Hin Hign) as (j & b & Hb & Hnm & Haddr).
    destruct (ResetBranches_body_old w1 dv' j b Hb)
      as (b' & Hb' & Hn' & _ & _ & Ha').
    exists j, b'. split_and!; [done|congruence|].
    destruct Ha' as [Ha'|[Hname _]]; [congruence|].
    exfalso. apply (Hdisj (name dv)).
    + by apply list_elem_of_fmap_2.
    + simpl. rewrite <- Hnm, Hname. by left.
  - subst dv'.
    assert (aligned w1) as Hal1 by (by apply aligned_ResetBranches).
    assert (ignored w1 (name dv) = false) as Hign1.
    { destruct (ResetBranches_sets w {| m_datavectors := l |}) as [Hi He].
      by rewrite (ignored_sets w w1). }
    rewrite ResetBranches_body_tree by done.
    destruct (with_branch_has w1 dv Hal1) as (b & Hb & Hnm).
    by apply (TTree_SetBranchAddress_binds _ _ _ b).
Qed.

(** X12: in a job started by [Init], when the event store that [Process]
    has filled has one buffer per name (as it has whenever the store it
    started from had), every buffer whose name passes the filters is
    flushed: the events tree has a branch of that name whose last row is
    the content of the buffer. *)
Theorem flushed_row_is_the_buffer (include_str exclude_str : string)
    (events : list (JEvent Obj POD)) event dv :
  let w := ProcessAll podData datamodel (Init include_str exclude_str) events in
  NoDup (name <$> m_datavectors (local_store event)) →
  dv ∈ m_datavectors (materialize podData datamodel w event).1 →
  ignored w (name dv) = false →
  ∃ j b, branches (m_datatree (Process podData datamodel w event).1) !! j
         = Some b
         ∧ br_name b = name dv
         ∧ last (baskets b) = Some (vec dv)
         ∧ length (baskets b) = S (length events).
Proof.
  intros w Hnd Hin Hign.
  assert (aligned w) as Hal.
  { apply aligned_ProcessAll, aligned_Init. }
  set (st := materialize podData datamodel w event) in *.
  assert (NoDup (name <$> m_datavectors st.1)) as Hnd1.
  { unfold st, materialize. rewrite foldl_Process_factory_store.
    by apply run_NoDup. }
  destruct (ResetBranches_binds (set_cerr w st.2) (m_datavectors st.1) dv)
    as (j & b & Hb & Hnm & Haddr); [by apply (aligned_same w)|done..|].
  assert ({| m_datavectors := m_datavectors st.1 |} = st.1) as Heta
    by (by destruct st.1).
  rewrite Heta in Hb.
  exists j, (TBranch_Fill b). rewrite Process_tree. fold st. simpl.
  rewrite list_lookup_fmap, Hb. simpl.
  split_and!; [done..|by rewrite last_snoc, Haddr|].
  assert (TBranch_Fill b
          ∈ branches (m_datatree (Process podData datamodel w event).1)) as Hmem.
  { apply list_elem_of_lookup. exists j. rewrite Process_tree. fold st. simpl.
    by rewrite list_lookup_fmap, Hb. }
  apply (Process_rows podData datamodel w event) in Hmem.
  - simpl in Hmem. rewrite Hmem, Process_entries. unfold w.
    rewrite ProcessAll_entries. simpl. lia.
  - apply ProcessAll_rows. simpl. by intros ? ?%elem_of_nil.
Qed.

End Aligned.

(** ** Finish: the collection type table *)

Section FinishFacts.

Lemma append_nil (q : string) : EmptyString +:+ q = q.
Proof. reflexivity. Qed.

Lemma append_cons c (p q : string) : String c p +:+ q = String c (p +:+ q).
Proof. reflexivity. Qed.

Lemma length_append (p q : string) :
  String.length (p +:+ q) = String.length p + String.length q.
Proof. induction p as [|c p IH]; simpl; [done|]. by rewrite IH. Qed.

Lemma append_assoc (p q r : string) : (p +:+ q) +:+ r = p +:+ (q +:+ r).
Proof.
  induction p as [|c p IH]; [done|].
  change (String c ((p +:+ q) +:+ r) = String c (p +:+ (q +:+ r))).
  by f_equal.
Qed.

Lemma drop_append (p q : string) : std_string.drop (String.length p) (p +:+ q) = q.
Proof. induction p as [|c p IH]; simpl; [by destruct q|done]. Qed.

Lemma take_append (p q : string) : std_string.take (String.length p) (p +:+ q) = p.
Proof. induction p as [|c p IH]; simpl; [by destruct q|]. by f_equal. Qed.

Lemma take_all (p : string) : std_string.take (String.length p) p = p.
Proof. induction p as [|c p IH]; simpl; [done|]. by f_equal. Qed.

Lemma find_first_of_lt s c i :
  std_string.find_first_of s c = Some i → i < String.length s.
Proof.
  revert i. induction s as [|a s IH]; intros i; simpl; [done|].
  case_decide; [intros [= <-]; lia|].
  destruct (std_string.find_first_of s c) as [k|]; simpl; [|done].
  intros [= <-]. specialize (IH k eq_refl). lia.
Qed.

Lemma find_first_of_append p q c :
  std_string.find_first_of (p +:+ q) c =
  match std_string.find_first_of p c with
  | Some i => Some i
  | None => (λ i, String.length p + i) <$> std_string.find_first_of q c
  end.
Proof.
  induction p as [|a p IH]; rewrite ?append_nil, ?append_cons; simpl.
  - by destruct (std_string.find_first_of q c).
  - case_decide; [done|]. rewrite IH.
    destruct (std_string.find_first_of p c); [done|].
    by destruct (std_string.find_first_of q c).
Qed.

Lemma find_last_of_append p q c :
  std_string.find_last_of (p +:+ q) c =
  match std_string.find_last_of q c with
  | Some i => Some (String.length p + i)
  | None => std_string.find_last_of p c
  end.
Proof.
  induction p as [|a p IH]; rewrite ?append_nil, ?append_cons; simpl.
  - by destruct (std_string.find_last_of q c).
  - rewrite IH. by destruct (std_string.find_last_of q c).
Qed.

Lemma size_t_between_forward a b :
  b < a → (N.of_nat a < 2 ^ 64)%N →
  std_string.size_t_between a b = N.of_nat (a - b - 1).
Proof.
  intros Hlt Hsize. unfold std_string.size_t_between.
  symmetry. apply (N.mod_unique _ _ 1%N); lia.
Qed.

Lemma size_t_between_wrapped a b :
  a < b → (N.of_nat b < 2 ^ 64)%N →
  std_string.size_t_between a b = (2 ^ 64 - N.of_nat (b - a) - 1)%N.
Proof.
  intros Hlt Hsize. unfold std_string.size_t_between.
  symmetry. apply (N.mod_unique _ _ 0%N); lia.
Qed.

(** [substr] is never called past the end, so [Finish] never throws on a
    class name. *)
Lemma collection_type_total className :
  ∃ o, collection_type className = Value o.
Proof.
  unfold collection_type, std_string.substr.
  destruct (std_string.find_first_of className "<") as [start_pos|] eqn:Hs;
    [|by eexists].
  destruct (std_string.find_last_of className ">") as [end_pos|];
    [|by eexists].
  apply find_first_of_lt in Hs.
  rewrite decide_False by lia. by eexists.
Qed.

(** X13: a class name made of some text without an opening bracket, an
    opening bracket, a type, a closing bracket and some text without a
    closing bracket gives the type followed by Collection, whatever
    brackets the type itself has.  So the class name vector<T> gives
    TCollection. *)
Theorem collection_type_of_bracketed_name (pre t post : string) :
  std_string.find_first_of pre "<" = None →
  std_string.find_last_of post ">" = None →
  (N.of_nat (String.length (pre +:+ "<" +:+ t +:+ ">" +:+ post)) < 2 ^ 64)%N →
  collection_type (pre +:+ "<" +:+ t +:+ ">" +:+ post)
  = Value (Some (t +:+ "Collection")).
Proof.
  intros Hpre Hpost Hsize. unfold collection_type.
  change (pre +:+ "<" +:+ t +:+ ">" +:+ post)
    with (pre +:+ String "<" (t +:+ String ">" post)) in *.
  rewrite find_first_of_append, Hpre. simpl std_string.find_first_of.
  simpl fmap.
  rewrite find_last_of_append. simpl std_string.find_last_of.
  rewrite find_last_of_append. simpl std_string.find_last_of.
  rewrite Hpost. simpl.
  rewrite !length_append in Hsize. simpl String.length in Hsize.
  rewrite length_append in Hsize. simpl String.length in Hsize.
  rewrite size_t_between_forward by lia.
  unfold std_string.substr. rewrite !length_append. simpl String.length.
  rewrite length_append. simpl String.length.
  rewrite decide_False by lia.
  replace (String.length pre + 0 + 1) with (String.length (pre +:+ "<"))
    by (rewrite length_append; simpl; lia).
  replace (pre +:+ String "<" (t +:+ String ">" post))
    with ((pre +:+ "<") +:+ (t +:+ String ">" post))
    by (by rewrite append_assoc).
  rewrite drop_append, length_append. simpl String.length.
  replace (N.to_nat _) with (String.length t) by lia.
  by rewrite take_append.
Qed.

(** X14: when the only closing brackets of a class name come before its
    first opening bracket, the count given to [substr] wraps around in
    [size_t] and [substr] takes all that follows the opening bracket: the
    collection type is that text followed by Collection. *)
Theorem collection_type_closing_before_opening (pre rest : string) e :
  std_string.find_first_of pre "<" = None →
  std_string.find_last_of pre ">" = Some e →
  std_string.find_last_of rest ">" = None →
  (N.of_nat (String.length (pre +:+ "<" +:+ rest)) < 2 ^ 64)%N →
  collection_type (pre +:+ "<" +:+ rest) = Value (Some (rest +:+ "Collection")).
Proof.
  intros Hpre He Hrest Hsize. unfold collection_type.
  change (pre +:+ "<" +:+ rest) with (pre +:+ String "<" rest) in *.
  rewrite find_first_of_append, Hpre. simpl std_string.find_first_of.
  simpl fmap.
  rewrite find_last_of_append. simpl std_string.find_last_of.
  rewrite Hrest, He.
  assert (e < String.length pre) as Hlt.
  { clear -He. revert e He. induction pre as [|a p IH]; intros e; simpl; [done|].
    destruct (std_string.find_last_of p ">") as [k|].
    - intros [= <-]. specialize (IH k eq_refl). lia.
    - case_decide; [intros [= <-]; lia|done]. }
  rewrite length_append in Hsize. simpl String.length in Hsize.
  rewrite size_t_between_wrapped by lia.
  unfold std_string.substr. rewrite length_append. simpl String.length.
  rewrite decide_False by lia.
  replace (String.length pre + 0 + 1) with (String.length (pre +:+ "<"))
    by (rewrite length_append; simpl; lia).
  replace (pre +:+ String "<" rest) with ((pre +:+ "<") +:+ rest)
    by (by rewrite append_assoc).
  rewrite drop_append, length_append. simpl String.length.
  replace (N.to_nat _) with (String.length rest) by lia.
  by rewrite take_all.
Qed.

End FinishFacts.

Section FinishJob.
Context {Obj POD : Type}.
Variable podData : Obj → outcome POD.
Variable datamodel : list (type_index * string).
Implicit Types (w : EICRootWriter POD) (b : TBranch POD) (nm : string).

Lemma Finish_fold_total w (names : list string)
    (acc : list (nat * string * bool)) :
  ∃ more, foldl (Finish_body w) (Value acc) names = Value (acc ++ more)
          ∧ length more ≤ length names
          ∧ Forall (λ e, e.2 = false
                         ∧ ∃ nm cls, nm ∈ names
                             ∧ m_collection_branches w !! nm = Some cls
                             ∧ collection_type cls = Value (Some e.1.2)) more.
Proof.
  revert acc. induction names as [|nm names IH]; intros acc.
  { exists []. rewrite app_nil_r. by split_and!. }
  cbn [foldl]. unfold Finish_body at 2. unfold std_map.count.
  assert (∀ acc' more',
            length more' ≤ 1 →
            Forall (λ e, e.2 = false
                         ∧ ∃ nm' cls, nm' ∈ nm :: names
                             ∧ m_collection_branches w !! nm' = Some cls
                             ∧ collection_type cls = Value (Some e.1.2)) more' →
            acc' = acc ++ more' →
            ∃ more, foldl (Finish_body w) (Value acc') names = Value (acc ++ more)
                    ∧ length more ≤ length (nm :: names)
                    ∧ Forall (λ e, e.2 = false
                         ∧ ∃ nm' cls, nm' ∈ nm :: names
                             ∧ m_collection_branches w !! nm' = Some cls
                             ∧ collection_type cls = Value (Some e.1.2)) more)
    as Hstep.
  { intros acc' more' Hlen Hall ->.
    destruct (IH (acc ++ more')) as (more & -> & Hl & Hf).
    exists (more' ++ more). rewrite app_assoc. split_and!; [done| |].
    - rewrite length_app. simpl. lia.
    - apply Forall_app. split; [done|].
      eapply Forall_impl; [exact Hf|]. simpl.
      intros e (He & nm' & cls & Hin & Hm & Hc). split; [done|].
      exists nm', cls. split_and!; [by right|done..]. }
  destruct (m_collection_branches w !! nm) as [cls|] eqn:Hcls.
  - rewrite decide_True by (by eexists).
    rewrite bool_decide_eq_false_2 by done. simpl.
    destruct (collection_type_total cls) as [o Ho]. rewrite Ho.
    destruct o as [collType|].
    + eapply Hstep; [| |done]; [simpl; lia|].
      repeat constructor. simpl. exists nm, cls.
      split_and!; [by left|done..].
    + apply (Hstep acc []); [simpl; lia|constructor|by rewrite app_nil_r].
  - rewrite decide_False by (by intros [? ?]).
    rewrite bool_decide_eq_true_2 by done.
    apply (Hstep acc []); [simpl; lia|constructor|by rewrite app_nil_r].
Qed.

(** X15: the loop of [Finish] never throws, whatever the class names in the
    branch map are: [substr] is only called at a position inside the name.
    The table it builds has at most one entry per registered name, each for
    a name that has a branch with a bracketed class name, and every entry
    is marked as not a subset. *)
Theorem Finish_never_throws w :
  ∃ info, Finish_collectionInfo w = Value info
          ∧ length info ≤ length (CollectionIDTable.names (m_collectionIDtable w))
          ∧ Forall (λ e, e.2 = false
                         ∧ ∃ nm cls,
                             nm ∈ CollectionIDTable.names (m_collectionIDtable w)
                             ∧ m_collection_branches w !! nm = Some cls
                             ∧ collection_type cls = Value (Some e.1.2)) info.
Proof.
  destruct (Finish_fold_total w
              (CollectionIDTable.names (m_collectionIDtable w)) [])
    as (more & Hfold & Hlen & Hall).
  exists more. by split_and!.
Qed.

Lemma Finish_fold_job w (l : list (TBranch POD)) k
    (acc : list (nat * string * bool)) :
  (∀ j b, l !! j = Some b →
     m_collection_branches w !! br_name b = Some (br_class b)
     ∧ CollectionIDTable.collectionID (m_collectionIDtable w) (br_name b)
       = Some (S (k + j))) →
  foldl (Finish_body w) (Value acc) (br_name <$> l)
  = Value (acc ++ omap id (imap (λ j, column_info (k + j)) l)).
Proof.
  revert k acc. induction l as [|b l IH]; intros k acc Hl.
  { simpl. by rewrite app_nil_r. }
  rewrite fmap_cons. cbn [foldl].
  destruct (Hl 0 b eq_refl) as [Hcls Hid].
  assert (Finish_body w (Value acc) (br_name b)
          = Value (acc ++ match column_info (k + 0) b with
                          | Some e => [e]
                          | None => []
                          end)) as ->.
  { unfold Finish_body, std_map.count, column_info. rewrite Hcls, Hid.
    rewrite decide_True by (by eexists).
    rewrite bool_decide_eq_false_2 by done. simpl.
    destruct (collection_type_total (br_class b)) as [o ->].
    destruct o; [done|]. by rewrite app_nil_r. }
  rewrite (IH (S k)).
  - rewrite imap_cons. simpl. rewrite <- app_assoc. f_equal.
    assert (imap ((λ j, column_info (k + j)) ∘ S) l
            = imap (λ j, column_info (S k + j)) l) as ->.
    { apply imap_ext. intros j b' _. simpl. f_equal. lia. }
    by destruct (column_info (k + 0) b).
  - intros j b' Hb'. destruct (Hl (S j) b' Hb') as [H1 H2].
    split; [done|]. rewrite H2. f_equal. lia.
Qed.

(** X16: at the end of a job started by [Init], [Finish] lists the columns
    of the events tree: one entry for every branch whose class name has the
    brackets, in the order in which the branches were created, with the
    place of the branch (from 1) as identity, the type between the brackets
    followed by Collection, and the subset mark off. *)
Theorem Finish_lists_the_columns (include_str exclude_str : string)
    (events : list (JEvent Obj POD)) :
  let w := ProcessAll podData datamodel (Init include_str exclude_str) events in
  Finish_collectionInfo w
  = Value (omap id (imap column_info (branches (m_datatree w)))).
Proof.
  intros w.
  destruct (aligned_ProcessAll podData datamodel
              (Init include_str exclude_str) events
              (aligned_Init include_str exclude_str))
    as (Hn & Hnum & Hnd & Hmap & _).
  fold w in Hn, Hnum, Hnd, Hmap.
  unfold Finish_collectionInfo. rewrite Hn.
  rewrite (Finish_fold_job w (branches (m_datatree w)) 0 []); [done|].
  intros j b Hb. split.
  - rewrite Hmap. apply elem_of_list_to_map_1.
    + by rewrite signature_names.
    + apply list_elem_of_fmap. exists b. split; [done|].
      apply list_elem_of_lookup. by exists j.
  - apply collectionID_position; [done|by rewrite Hn|].
    simpl. by rewrite Hn, list_lookup_fmap, Hb.
Qed.

End FinishJob.

(** ** The further properties at concrete cases *)

Lemma PutPODIODataT_empty_name_means_skipped_witness :
  DeriveCollectionName "Cluster" "edm4hep::Cluster" Scenario.producer_A
  ≠ EmptyString
  ∧ ((PutPODIODataT Scenario.podData "Cluster" "edm4hep::Cluster"
        (Scenario.writer_with ∅ ∅) Scenario.producer_A Scenario.empty_store).1
     = Value EmptyString
     ↔ bails_early (Scenario.writer_with ∅ ∅)
         (DeriveCollectionName "Cluster" "edm4hep::Cluster" Scenario.producer_A)
       = true).
Proof.
  apply (PutPODIODataT_empty_name_means_skipped Scenario.podData "Cluster"
           "edm4hep::Cluster" (Scenario.writer_with ∅ ∅) Scenario.producer_A
           Scenario.empty_store).
  discriminate.
Defined.

Lemma exclude_entry_silences_the_factories_witness :
  materialize Scenario.podData Scenario.datamodel
    (Scenario.writer_with ∅ {["Noise"]}) Scenario.mixed_event
  = (local_store Scenario.mixed_event, cerr (Scenario.writer_with ∅ {["Noise"]})).
Proof.
  apply (exclude_entry_silences_the_factories Scenario.podData
           Scenario.datamodel (Scenario.writer_with ∅ {["Noise"]})
           Scenario.mixed_event).
  simpl. apply non_empty_singleton_L.
Defined.

Lemma no_failure_no_error_line_witness :
  cerr (Process Scenario.podData Scenario.datamodel (Scenario.writer_with ∅ ∅)
          Scenario.cluster_event).1
  = cerr (Scenario.writer_with ∅ ∅).
Proof.
  apply (no_failure_no_error_line Scenario.podData Scenario.datamodel
           (Scenario.writer_with ∅ ∅) Scenario.cluster_event).
  intros fac T obj Hfac Hobj. simpl in Hfac.
  apply list_elem_of_singleton in Hfac. subst fac. simpl in Hobj.
  case_decide; [|by apply elem_of_nil in Hobj].
  destruct obj as [|n]; [|by eexists].
  apply elem_of_cons in Hobj as [Hobj|Hobj]; [discriminate|].
  apply elem_of_cons in Hobj as [Hobj|Hobj]; [discriminate|].
  by apply elem_of_nil in Hobj.
Defined.

Lemma flushed_rows_are_never_rewritten_witness :
  ∃ b', branches (m_datatree
          (ProcessAll Scenario.podData Scenario.datamodel
             (Process Scenario.podData Scenario.datamodel
                (Scenario.writer_with ∅ ∅) Scenario.cluster_event).1
             [Scenario.idle_event; Scenario.mixed_event])) !! 0
        = Some b'
        ∧ br_name b' = "Cluster"
        ∧ [[1; 2]] `prefix_of` baskets b'
        ∧ length (baskets b') = 1 + 2.
Proof.
  apply (flushed_rows_are_never_rewritten Scenario.podData Scenario.datamodel
           (Process Scenario.podData Scenario.datamodel
              (Scenario.writer_with ∅ ∅) Scenario.cluster_event).1
           [Scenario.idle_event; Scenario.mixed_event] 0
           {| br_name := "Cluster"; br_class := "edm4hep::Cluster";
              address := [1; 2]; baskets := [[1; 2]] |}).
  reflexivity.
Defined.

Lemma flushed_row_is_the_buffer_witness :
  ∃ j b, branches (m_datatree
           (Process Scenario.podData Scenario.datamodel
              (ProcessAll Scenario.podData Scenario.datamodel
                 (Init EmptyString EmptyString) [Scenario.idle_event])
              Cases.attached_event).1) !! j
         = Some b
         ∧ br_name b = "Tracks"
         ∧ last (baskets b) = Some [8]
         ∧ length (baskets b) = 2.
Proof.
  apply (flushed_row_is_the_buffer Scenario.podData Scenario.datamodel
           EmptyString EmptyString [Scenario.idle_event] Cases.attached_event
           {| name := "Tracks"; className := "vector<edm4hep::Track>";
              vec := [8] |}).
  - simpl. apply NoDup_cons. split.
    + intros Hin%list_elem_of_singleton. discriminate.
    + apply NoDup_singleton.
  - vm_compute. left.
  - reflexivity.
Defined.

Lemma collection_type_of_bracketed_name_witness :
  collection_type ("vector" +:+ "<" +:+ "edm4hep::EventHeader" +:+ ">"
                   +:+ EmptyString)
  = Value (Some ("edm4hep::EventHeader" +:+ "Collection")).
Proof.
  apply (collection_type_of_bracketed_name "vector" "edm4hep::EventHeader"
           EmptyString).
  - reflexivity.
  - reflexivity.
  - vm_compute. reflexivity.
Defined.

Lemma collection_type_closing_before_opening_witness :
  collection_type ("a>b" +:+ "<" +:+ "cd") = Value (Some ("cd" +:+ "Collection")).
Proof.
  apply (collection_type_closing_before_opening "a>b" "cd" 1).
  - reflexivity.
  - reflexivity.
  - reflexivity.
  - vm_compute. reflexivity.
Defined.

(** The class names of the attached store give the collection types. *)
Example Finish_of_attached_event :
  Finish_collectionInfo
    (Process Scenario.podData Scenario.datamodel (Init EmptyString EmptyString)
       Cases.attached_event).1
  = Value [(1, "edm4hep::TrackCollection", false);
           (2, "edm4hep::ClusterCollection", false)].
Proof. reflexivity. Qed.
